(** * The build orchestrator of inert and its markdown stage

    A shallow embedding of [build] (the project build entry point) and of
    the [markdown] build utility, with the theorems that settle the
    properties stated about them.

    The JavaScript runtime is modelled as explicit state passing: a
    [World] holds the file system, the mutable part of the loaded
    configuration object, the work that stages have left for the event
    loop, and a trace of the orchestrator's calls to its collaborators.
    A computation either returns a value or throws. *)

From Stdlib Require Import Ascii.
From stdpp Require Import gmap strings list fin_maps sorting.

Local Set Warnings "-register-all".

Open Scope string_scope.
Open Scope list_scope.

(** ** JavaScript values *)

(** The values a pipeline accumulator can hold.  Functions are kept apart
    (see [pipe]) so that [typeof v !== 'function'] holds of every [value].
    [VPromise] is what an [async] stage returns; [build] passes it on
    like any other value. *)
Inductive value : Type :=
| VUndefined
| VNull
| VBool (b : bool)
| VNum (n : Z)
| VStr (s : string)
| VObj (props : list (string * value))
| VPromise.

(** A plain object is the list of its own enumerable properties, in
    insertion order.  [o[k]]: *)
Fixpoint obj_get {A} (o : list (string * A)) (k : string) : option A :=
  match o with
  | [] => None
  | (k', v) :: o' => if String.eqb k' k then Some v else obj_get o' k
  end.

(** [o[k] = v]: overwrite in place, or append a new property. *)
Fixpoint obj_set {A} (o : list (string * A)) (k : string) (v : A) : list (string * A) :=
  match o with
  | [] => [(k, v)]
  | (k', v') :: o' =>
      if String.eqb k' k then (k', v) :: o' else (k', v') :: obj_set o' k v
  end.

Definition digit_value (c : ascii) : option N :=
  let n := N_of_ascii c in
  if (48 <=? n)%N && (n <=? 57)%N then Some (n - 48)%N else None.

Fixpoint digits_value (acc : N) (s : string) : option N :=
  match s with
  | EmptyString => Some acc
  | String c r =>
      match digit_value c with
      | Some d => digits_value (10 * acc + d)%N r
      | None => None
      end
  end.

(** An array index: the canonical decimal form of an integer from 0 to
    2^32 - 2. *)
Definition array_index (s : string) : option N :=
  match s with
  | EmptyString => None
  | String c r =>
      if Ascii.eqb c "0"%char && negb (String.eqb r "") then None
      else
        match digits_value 0 s with
        | Some n => if (n <=? 4294967294)%N then Some n else None
        | None => None
        end
  end.

Definition index_le (a b : N * string) : Prop := (a.1 ≤ b.1)%N.

#[global] Instance index_le_dec a b : Decision (index_le a b) :=
  decide (a.1 ≤ b.1)%N.

Definition indexed (k : string) : option (N * string) :=
  match array_index k with
  | Some n => Some (n, k)
  | None => None
  end.

Definition is_named (k : string) : bool :=
  match array_index k with Some _ => false | None => true end.

(** The order in which an object hands out its own keys: the array
    indices first, by ascending value, then the other keys as they were
    added. *)
Definition own_keys (ks : list string) : list string :=
  map snd (merge_sort index_le (omap indexed ks)) ++ List.filter is_named ks.

(** [Object.keys(o)], also the order of [for (let k in o)]. *)
Definition obj_keys {A} (o : list (string * A)) : list string :=
  own_keys (map fst o).

(** ** Errors and outcomes *)

Inductive error : Type :=
| ENOENT
| EEXIST
| ENOTDIR
| EISDIR
| TypeError (msg : string)
| UserError (msg : string).

Inductive outcome (A : Type) : Type :=
| Ret (a : A)
| Throw (e : error).
Arguments Ret {A} a.
Arguments Throw {A} e.

(** ** Paths *)

(** An absolute, normalised path: its segments from the root. *)
Definition abspath := list string.

Fixpoint split_slash_from (cur : string) (s : string) : list string :=
  match s with
  | EmptyString => [cur]
  | String c r =>
      if Ascii.eqb c "/"%char then cur :: split_slash_from "" r
      else split_slash_from (cur +:+ String c "") r
  end.

Definition split_slash (s : string) : list string := split_slash_from "" s.

Definition step_segment (p : abspath) (seg : string) : abspath :=
  if String.eqb seg "" then p
  else if String.eqb seg "." then p
  else if String.eqb seg ".." then removelast p
  else p ++ [seg].

(** [path.join(base, rel)] for an absolute [base]: the segments of [rel]
    are appended, [.] and empty segments dropped, [..] going one up. *)
Definition join (base : abspath) (rel : string) : abspath :=
  foldl step_segment base (split_slash rel).

Definition show_path (p : abspath) : string :=
  "/" +:+ String.concat "/" p.

Fixpoint ends_with_slash (s : string) : bool :=
  match s with
  | EmptyString => false
  | String c EmptyString => Ascii.eqb c "/"%char
  | String _ r => ends_with_slash r
  end.

(** The string [path.join(base, rel)] returns: the normalised path, with
    the slash at the end of [rel] kept unless the result is the root. *)
Definition join_text (base : abspath) (rel : string) : string :=
  match join base rel with
  | [] => "/"
  | p => show_path p +:+ (if ends_with_slash rel then "/" else "")
  end.

(** ** The file system *)

Inductive node : Type :=
| Dir
| File (content : string).

(** Existing entries by path.  The root is a directory and is not stored. *)
Definition fs_lookup (m : gmap abspath node) (p : abspath) : option node :=
  match p with
  | [] => Some Dir
  | _ => m !! p
  end.

Definition fs_exists (m : gmap abspath node) (p : abspath) : bool :=
  bool_decide (is_Some (fs_lookup m p)).

Definition fs_is_dir (m : gmap abspath node) (p : abspath) : bool :=
  match fs_lookup m p with
  | Some Dir => true
  | _ => false
  end.

(** [fs.mkdir(p)]: the parent must be a directory and [p] must be free. *)
Definition fs_mkdir (m : gmap abspath node) (p : abspath) : outcome (gmap abspath node) :=
  match fs_lookup m p with
  | Some _ => Throw EEXIST
  | None =>
      match fs_lookup m (removelast p) with
      | None => Throw ENOENT
      | Some (File _) => Throw ENOTDIR
      | Some Dir => Ret (<[p := Dir]> m)
      end
  end.

(** [fs.mkdir(p, {recursive: true})]: walk down from [done], creating each
    missing segment; an existing directory is passed over, a file on the
    way is an error. *)
Fixpoint fs_mkdir_rec (m : gmap abspath node) (done : abspath) (rest : list string)
  : outcome (gmap abspath node) :=
  match rest with
  | [] => Ret m
  | seg :: rest' =>
      let q := done ++ [seg] in
      match fs_lookup m q with
      | Some Dir => fs_mkdir_rec m q rest'
      | Some (File _) => Throw (match rest' with [] => EEXIST | _ => ENOTDIR end)
      | None => fs_mkdir_rec (<[q := Dir]> m) q rest'
      end
  end.

Definition fs_mkdirp (m : gmap abspath node) (p : abspath) : outcome (gmap abspath node) :=
  fs_mkdir_rec m [] p.

(** [fs.readFileSync(p).toString()] *)
Definition fs_read (m : gmap abspath node) (p : abspath) : outcome string :=
  match fs_lookup m p with
  | None => Throw ENOENT
  | Some Dir => Throw EISDIR
  | Some (File c) => Ret c
  end.

(** ** Configuration, files and pipeline entries *)

(** What [getFileInfo] derives from a path, as far as the stages here
    read it ([file.path], [file.basename]). *)
Record InertFile : Type := {
  path : abspath;
  basename : string;
  extension : string
}.

(** The data of [config.build] that a stage can read.  The pipelines
    themselves are left out of a stage's view of the configuration, which
    keeps the type of stages well founded. *)
Record ConfigData : Type := {
  sourceDirs : list (string * string);
  outDirs : list (string * string)
}.

(** [config.custom]: the one part of the configuration object that is
    written to during a build, hence kept in the store.  A spinner is an
    object whose [text] property is read with [spinner.text]. *)
Record Custom : Type := {
  spinner : option (gmap string value)
}.

(** Work that has been handed to the event loop and has not had its
    turn: what it will do to the file system once it runs.  This is how
    the rest of an [async] stage, past its first [await], is kept. *)
Definition job : Type := gmap abspath node -> gmap abspath node.

(** What stages can read and write.  [pending] is the queue of deferred
    work; a stage may add to it, and [build], which never awaits what a
    stage returns, neither runs nor waits for any of it. *)
Record Store : Type := {
  fs : gmap abspath node;
  custom : option Custom;
  pending : list job
}.

(** A pipeline component [(config, file, previous) => result]: the call
    itself, up to the point where it returns.  What an [async] component
    leaves to be done later goes to [pending]. *)
Definition stage : Type :=
  ConfigData -> InertFile -> value -> Store -> outcome value * Store.

(** An element of [filePipeline]: a function, or anything else. *)
Inductive pipe : Type :=
| PFun (f : stage)
| PVal (v : value).

Record BuildFolderOptions : Type := {
  traverseLevel : option string;
  filePipeline : list pipe
}.

Record BuildFolder : Type := {
  folder : string;
  folder_build : BuildFolderOptions
}.

Record InertConfig : Type := {
  dirs : ConfigData;
  folders : list BuildFolder
}.

Record BuildOptions : Type := {
  logging : option bool;
  verbose : option bool;
  has_spinner : bool
}.

(** ** The world and its trace *)

Inductive level : Type := LError | LWarn | LVerb.

(** The orchestrator's calls to its collaborators, in program order. *)
Inductive event : Type :=
| SpinnerStop
| SpinnerStart
| Log (lvl : level) (msg : string)
| Mkdir (p : abspath) (recursive : bool)
| Traverse (p : abspath) (flag : bool) (recursive : bool)
| StageCall (pos : nat) (cfg : ConfigData) (file : InertFile) (prev : value).

Record World : Type := {
  store : Store;
  cwd : abspath;
  trace : list event
}.

Definition emit (e : event) (w : World) : World :=
  {| store := store w; cwd := cwd w; trace := trace w ++ [e] |}.

Definition with_store (st : Store) (w : World) : World :=
  {| store := st; cwd := cwd w; trace := trace w |}.

Definition with_fs (m : gmap abspath node) (w : World) : World :=
  with_store {| fs := m; custom := custom (store w); pending := pending (store w) |} w.

(** ** Computations: state passing with exceptions *)

Definition M (A : Type) : Type := World -> outcome A * World.

Definition ret {A} (a : A) : M A := fun w => (Ret a, w).

Definition bind {A B} (m : M A) (k : A -> M B) : M B :=
  fun w =>
    match m w with
    | (Ret a, w') => k a w'
    | (Throw e, w') => (Throw e, w')
    end.

#[global] Instance M_ret : MRet M := @ret.
#[global] Instance M_bind : MBind M := fun A B k m => bind m k.

(** [for (const x of l) body(x)] *)
Fixpoint for_of {A} (l : list A) (body : A -> M unit) : M unit :=
  match l with
  | [] => ret tt
  | x :: l' => body x;; for_of l' body
  end.

(** [l.map(f)] for an effectful [f]. *)
Fixpoint map_m {A B} (f : A -> M B) (l : list A) : M (list B) :=
  match l with
  | [] => ret []
  | x :: l' => y ← f x; ys ← map_m f l'; ret (y :: ys)
  end.

Definition tell (e : event) : M unit := fun w => (Ret tt, emit e w).

Definition existsSync (p : abspath) : M bool :=
  fun w => (Ret (fs_exists (fs (store w)) p), w).

Definition mkdir (p : abspath) (recursive : bool) : M unit :=
  fun w =>
    let w1 := emit (Mkdir p recursive) w in
    match (if recursive then fs_mkdirp else fs_mkdir) (fs (store w)) p with
    | Ret m => (Ret tt, with_fs m w1)
    | Throw e => (Throw e, w1)
    end.

(** [options.spinner?.stop()] and [options.spinner?.start()] *)
Definition spinner_stop (options : BuildOptions) : M unit :=
  if has_spinner options then tell SpinnerStop else ret tt.

Definition spinner_start (options : BuildOptions) : M unit :=
  if has_spinner options then tell SpinnerStart else ret tt.

(** The logger built from [options.logging] and [options.verbose ?? true];
    a call to one of its methods is recorded, what it prints is its own
    business. *)
Record Logger : Type := {
  log_logging : option bool;
  log_verbose : bool
}.

Definition new_Logger (options : BuildOptions) : Logger :=
  {| log_logging := logging options;
     log_verbose := default true (verbose options) |}.

Definition log_call (log : Logger) (lvl : level) (msg : string) : M unit :=
  tell (Log lvl msg).

(** A call of a pipeline function: it runs on the store, and the call is
    recorded with its three arguments. *)
Definition call_stage (pos : nat) (f : stage) (cfg : ConfigData)
    (file : InertFile) (prev : value) : M value :=
  fun w =>
    let '(o, st) := f cfg file prev (store w) in
    (o, with_store st (emit (StageCall pos cfg file prev) w)).

(** ** The orchestrator *)

(** The helpers [build] imports from modules that are not part of these
    sources, taken as parameters:
    [resolveSourceDir] and [resolveOutDir] (./utils/dirs),
    [traverse] (./utils/traverse, reading the file system and possibly
    rejecting), [getFileInfo] (./utils/file), [cyan] and [gray] (chalk). *)
Record Externals : Type := {
  resolveSourceDir : ConfigData -> string -> string;
  resolveOutDir : ConfigData -> string -> string;
  traverse : gmap abspath node -> abspath -> bool -> bool -> outcome (list abspath);
  getFileInfo : abspath -> InertFile;
  cyan : string -> string;
  gray : string -> string
}.

Definition process_cwd : M abspath := fun w => (Ret (cwd w), w).

Definition msg_invalid_project : string :=
  "The current working directory does not appear to be a valid inert project.".
Definition msg_create_project : string :=
  "You can create a new project using the following command:".
Definition msg_missing_dirs : string :=
  "Missing some source directories. Make sure every directory defined in 'config.build.sourceDirs' exists".
Definition msg_not_a_function : string :=
  "Pipeline component is not a function. Skipping. Please make sure all elements in the filePipeline are functions.".

Section Build.

Variable X : Externals.

(** [await traverse(path, false, recursive)] *)
Definition call_traverse (p : abspath) (flag recursive : bool) : M (list abspath) :=
  fun w =>
    let w1 := emit (Traverse p flag recursive) w in
    (traverse X (fs (store w)) p flag recursive, w1).

(** The loop over [folder.build.filePipeline] for one file; [prev_res] is
    the loop's mutable variable, [pos] the index of the next component. *)
Fixpoint run_pipeline (options : BuildOptions) (log : Logger) (config : InertConfig)
    (file : abspath) (pos : nat) (pipes : list pipe) (prev_res : value) : M value :=
  match pipes with
  | [] => ret prev_res
  | pipe :: rest =>
      match pipe with
      | PVal _ =>
          spinner_stop options;;
          log_call log LWarn msg_not_a_function;;
          spinner_start options;;
          run_pipeline options log config file (S pos) rest prev_res
      | PFun f =>
          r ← call_stage pos f (dirs config) (getFileInfo X file) prev_res;
          run_pipeline options log config file (S pos) rest r
      end
  end.

(** The body of [for (const file of files)]: a fresh [prev_res], then the
    pipeline.  The final accumulator is returned here so that it can be
    spoken about; [build] drops it. *)
Definition build_file (options : BuildOptions) (log : Logger) (config : InertConfig)
    (pipes : list pipe) (file : abspath) : M value :=
  let prev_res := VUndefined in
  run_pipeline options log config file 0 pipes prev_res.

(** [folder.build.traverseLevel === 'rescursive' ? true : false] *)
Definition recursive_flag (fb : BuildFolderOptions) : bool :=
  match traverseLevel fb with
  | Some s => if String.eqb s "rescursive" then true else false
  | None => false
  end.

(** The body of [for (let folder of folders)]. *)
Definition build_folder (options : BuildOptions) (log : Logger) (config : InertConfig)
    (project_dir : abspath) (fld : BuildFolder) : M unit :=
  let path := join project_dir (resolveSourceDir X (dirs config) (folder fld)) in
  spinner_stop options;;
  log_call log LVerb
    ("Building "
     +:+ cyan X (join_text project_dir (resolveSourceDir X (dirs config) (folder fld))));;
  spinner_start options;;
  files ← call_traverse path false (recursive_flag (folder_build fld));
  for_of files (fun file =>
    build_file options log config (filePipeline (folder_build fld)) file;;
    ret tt).

(** Lines 58 to 71: the output directory and its subdirectories. *)
Definition setup_output (options : BuildOptions) (log : Logger) (config : InertConfig)
    (project_dir : abspath) : M unit :=
  let out_dir := join project_dir (resolveOutDir X (dirs config) ":output:") in
  spinner_stop options;;
  e ← existsSync out_dir;
  (if (e : bool) then log_call log LVerb "Output directory already exists"
   else
     log_call log LVerb
       ("Creating output directory: "
        +:+ join_text project_dir (resolveOutDir X (dirs config) ":output:"));;
     mkdir out_dir false : M unit);;
  for_of (obj_keys (outDirs (dirs config))) (fun outdir =>
    mkdir
      (join project_dir
         (resolveOutDir X (dirs config)
            (default "undefined" (obj_get (outDirs (dirs config)) outdir))))
      true);;
  spinner_start options.

(** [Object.keys(sourceDirs).map(dir => existsSync(...)).some(v => v === false)] *)
Definition some_source_dir_missing (config : InertConfig) (project_dir : abspath) : M bool :=
  found ← map_m
    (fun dir => existsSync (join project_dir (resolveSourceDir X (dirs config) dir)))
    (obj_keys (sourceDirs (dirs config)));
  ret (existsb (fun v => Bool.eqb v false) found).

(** [build(options)].  [config] is what [require] of the project's
    [inert.config.js] evaluates to; it is only looked at once that file is
    known to exist. *)
Definition build (options : BuildOptions) (config : InertConfig) : M bool :=
  let log := new_Logger options in
  project_dir ← process_cwd;
  has_config ← existsSync (join project_dir "inert.config.js");
  if negb has_config then
    spinner_stop options;;
    log_call log LError msg_invalid_project;;
    log_call log LError msg_create_project;;
    log_call log LError
      (gray X "$" +:+ " inert " +:+ cyan X ("init " +:+ show_path project_dir));;
    spinner_start options;;
    ret false
  else
    missing ← some_source_dir_missing config project_dir;
    if (missing : bool) then
      spinner_stop options;;
      log_call log LError msg_missing_dirs;;
      spinner_start options;;
      ret false
    else
      setup_output options log config project_dir;;
      for_of (folders config) (build_folder options log config project_dir);;
      ret true.

End Build.

(** ** The markdown build utility *)

(** The result of [fm(markdown)] (front-matter). *)
Record FrontMatterResult : Type := {
  attributes : value;
  fm_body : string;
  bodyBegin : Z;
  frontmatter : option string
}.

Definition fm_object (c : FrontMatterResult) : list (string * value) :=
  [("attributes", attributes c); ("body", VStr (fm_body c)); ("bodyBegin", VNum (bodyBegin c))]
  ++ match frontmatter c with
     | Some s => [("frontmatter", VStr s)]
     | None => []
     end.

(** [MarkdownIt.Options]: the [highlight] key and the plain settings.
    For [highlight], [None] is an object without the key, [Some None] the
    key set to [null] or [undefined], [Some (Some h)] the key set to a
    callback. *)
Record MarkdownItOptions : Type := {
  highlight : option (option (string -> string -> string));
  settings : list (string * value)
}.

(** [{...a, ...b}]: a key that [b] has, whatever it holds, replaces the
    one of [a]. *)
Definition spread_options (a b : MarkdownItOptions) : MarkdownItOptions :=
  {| highlight := match highlight b with Some h => Some h | None => highlight a end;
     settings := fold_left (fun o kv => obj_set o kv.1 kv.2) (settings b) (settings a) |}.

(** The libraries [markdown] calls: front-matter, markdown-it's [render]
    for a compiler built from the given options, Prism and chalk. *)
Record MarkdownLibs : Type := {
  fm : string -> outcome FrontMatterResult;
  render : MarkdownItOptions -> string -> outcome string;
  prism_language : string -> bool;
  prism_highlight : string -> string -> string;
  chalk_cyan : string -> string
}.

Definition dquote : string := String (Ascii.ascii_of_nat 34) EmptyString.

Definition pre_code (lang inner : string) : string :=
  "<pre class=" +:+ dquote +:+ "lang-" +:+ lang +:+ dquote +:+ "><code>"
  +:+ inner +:+ "</code></pre>".

(** [config.custom?.spinner] *)
Definition config_spinner (st : Store) : option (gmap string value) :=
  match custom st with
  | Some c => spinner c
  | None => None
  end.

(** [config.custom?.spinner?.text]; a missing property reads as [undefined]. *)
Definition spinner_text_of (st : Store) : value :=
  match config_spinner st with
  | Some sp => default VUndefined (sp !! "text")
  | None => VUndefined
  end.

(** [if (config.custom?.spinner) config.custom.spinner.text = v] *)
Definition set_spinner_text (v : value) (st : Store) : Store :=
  match config_spinner st with
  | Some sp =>
      {| fs := fs st;
         custom := Some {| spinner := Some (<["text" := v]> sp) |};
         pending := pending st |}
  | None => st
  end.

Section Markdown.

Variable L : MarkdownLibs.

Definition default_options : MarkdownItOptions :=
  {| highlight := Some (Some (fun str lang =>
       if negb (String.eqb lang "") && prism_language L lang
       then pre_code lang (prism_highlight L str lang)
       else pre_code lang str));
     settings := [] |}.

Definition no_options : MarkdownItOptions :=
  {| highlight := None; settings := [] |}.

(** [markdown(markdownItOptions)]: the stage it returns. *)
Definition markdown (markdownItOptions : option MarkdownItOptions) : stage :=
  fun config file previous st =>
    let compiler := spread_options default_options (default no_options markdownItOptions) in
    let spinner_text := spinner_text_of st in
    let st1 :=
      set_spinner_text (VStr ("Building markdown: " +:+ chalk_cyan L (basename file))) st in
    match fs_read (fs st1) (path file) with
    | Throw e => (Throw e, st1)
    | Ret markdown =>
        match fm L markdown with
        | Throw e => (Throw e, st1)
        | Ret content =>
            match render L compiler (fm_body content) with
            | Throw e => (Throw e, st1)
            | Ret body =>
                let result := VObj (obj_set (fm_object content) "body" (VStr body)) in
                (Ret result, set_spinner_text spinner_text st1)
            end
        end
    end.

End Markdown.

(** ** File discovery and a fixture project *)

Fixpoint is_prefix (p q : abspath) : bool :=
  match p, q with
  | [], _ => true
  | a :: p', b :: q' => String.eqb a b && is_prefix p' q'
  | _ :: _, [] => false
  end.

Definition is_file (n : node) : bool :=
  match n with File _ => true | Dir => false end.

(** Modelled from the spec: the file-discovery primitive [traverse]
    (./utils/traverse is not part of these sources).  Given a directory and
    a recursion flag it lists file paths: the immediate children that are
    files when the flag is off, the files of the whole subtree when it is
    on.  The middle argument, which [build] always passes as [false], is
    not described and is ignored. *)
Definition traverse_model (m : gmap abspath node) (dir : abspath)
    (flag recursive : bool) : outcome (list abspath) :=
  match fs_lookup m dir with
  | None => Throw ENOENT
  | Some (File _) => Throw ENOTDIR
  | Some Dir =>
      Ret (map fst
             (filter
                (fun e : abspath * node =>
                   is_file e.2 && is_prefix dir e.1 &&
                   (recursive || Nat.eqb (length e.1) (S (length dir))))
                (map_to_list m)))
  end.

Module Fixture.

Definition lookup_or_self (o : list (string * string)) (name : string) : string :=
  default name (obj_get o name).

Fixpoint before_dot (s : string) : string :=
  match s with
  | EmptyString => EmptyString
  | String c r => if Ascii.eqb c "."%char then EmptyString else String c (before_dot r)
  end.

Definition externals : Externals :=
  {| resolveSourceDir := fun cfg name => lookup_or_self (sourceDirs cfg) name;
     resolveOutDir := fun cfg s => if String.eqb s ":output:" then "dist" else s;
     traverse := traverse_model;
     getFileInfo := fun p =>
       {| path := p; basename := before_dot (List.last p ""); extension := "md" |};
     cyan := fun s => s;
     gray := fun s => s |}.

Definition posts : abspath := ["proj"; "content"; "posts"].

Definition disk : gmap abspath node :=
  list_to_map
    [ (["proj"], Dir);
      (["proj"; "inert.config.js"], File "module.exports = {}");
      (["proj"; "content"], Dir);
      (posts, Dir);
      (posts ++ ["a.md"], File "# a");
      (posts ++ ["b.md"], File "# b");
      (posts ++ ["nested"], Dir);
      (posts ++ ["nested"; "c.md"], File "# c") ].

Definition world : World :=
  {| store := {| fs := disk; custom := None; pending := [] |};
     cwd := ["proj"]; trace := [] |}.

Definition options : BuildOptions :=
  {| logging := None; verbose := None; has_spinner := false |}.

(** A stage that returns [{title: file.basename}]. *)
Definition title_stage : stage :=
  fun _ file _ st => (Ret (VObj [("title", VStr (basename file))]), st).

Definition config (level : option string) : InertConfig :=
  {| dirs := {| sourceDirs := [("posts", "content/posts")];
                outDirs := [("html", "dist/html")] |};
     folders := [ {| folder := "posts";
                     folder_build := {| traverseLevel := level;
                                        filePipeline := [PFun title_stage] |} |} ] |}.

(** A stage that raises. *)
Definition failing_stage : stage :=
  fun _ _ _ st => (Throw (UserError "boom"), st).


Definition posts_folder (stages : list pipe) : BuildFolder :=
  {| folder := "posts";
     folder_build := {| traverseLevel := None; filePipeline := stages |} |}.

Definition config_with (stages : list pipe) : InertConfig :=
  {| dirs := dirs (config None);
     folders := [ posts_folder stages ] |}.

(** A stage that counts the stages before it: [previous + 1], or [1]. *)
Definition count_stage : stage :=
  fun _ _ previous st =>
    (Ret (match previous with VNum n => VNum (n + 1) | _ => VNum 1 end), st).

(** The configuration with one more source directory, which is not on disk. *)
Definition config_missing_assets : InertConfig :=
  {| dirs := {| sourceDirs := [("posts", "content/posts"); ("assets", "assets")];
                outDirs := [("html", "dist/html")] |};
     folders := folders (config None) |}.

(** The same process in an empty project directory. *)
Definition bare_world : World :=
  {| store := {| fs := {[ ["proj"] := Dir ]}; custom := None; pending := [] |};
     cwd := ["proj"]; trace := [] |}.

Definition a_md : abspath := posts ++ ["a.md"].
Definition b_md : abspath := posts ++ ["b.md"].
Definition c_md : abspath := posts ++ ["nested"; "c.md"].

Definition libs : MarkdownLibs :=
  {| fm := fun s =>
       Ret {| attributes := VObj []; fm_body := s; bodyBegin := 1; frontmatter := None |};
     render := fun _ s => Ret ("<p>" +:+ s +:+ "</p>");
     prism_language := fun _ => false;
     prism_highlight := fun s _ => s;
     chalk_cyan := fun s => s |}.

(** A store whose configuration carries a spinner showing [Building]. *)
Definition store_with_spinner : Store :=
  {| fs := disk;
     custom := Some {| spinner := Some {[ "text" := VStr "Building" ]} |};
     pending := [] |}.



(** [outDirs] with array indices among its keys, and collaborators whose
    output root is written with a slash at its end. *)
Definition config_numbered : InertConfig :=
  {| dirs := {| sourceDirs := [("posts", "content/posts")];
                outDirs := [("html", "dist/html"); ("10", "dist/ten"); ("2", "dist/two")] |};
     folders := [] |}.

Definition externals_slash : Externals :=
  {| resolveSourceDir := resolveSourceDir externals;
     resolveOutDir := fun cfg s => if String.eqb s ":output:" then "dist/" else s;
     traverse := traverse_model;
     getFileInfo := getFileInfo externals;
     cyan := fun s => s;
     gray := fun s => s |}.

(** The same options with a spinner handed in. *)
Definition options_with_spinner : BuildOptions :=
  {| logging := None; verbose := None; has_spinner := true |}.

(** Collaborators that put the output root two levels down. *)
Definition externals_nested : Externals :=
  {| resolveSourceDir := resolveSourceDir externals;
     resolveOutDir := fun cfg s => if String.eqb s ":output:" then "build/dist" else s;
     traverse := traverse_model;
     getFileInfo := getFileInfo externals;
     cyan := fun s => s;
     gray := fun s => s |}.

(** A folder whose source directory is not on disk. *)
Definition ghost_folder : BuildFolder :=
  {| folder := "ghost";
     folder_build := {| traverseLevel := None; filePipeline := [PFun title_stage] |} |}.

(** A file that is not on disk. *)
Definition zzz_md : abspath := posts ++ ["zzz.md"].

(** A store whose spinner has no [text] yet. *)
Definition store_with_bare_spinner : Store :=
  {| fs := disk; custom := Some {| spinner := Some ∅ |}; pending := [] |}.

End Fixture.


(** ** Vocabulary of the statements *)

Definition emit_all (evs : list event) (w : World) : World :=
  {| store := store w; cwd := cwd w; trace := trace w ++ evs |}.

Definition spinner_events (options : BuildOptions) (e : event) : list event :=
  if has_spinner options then [e] else [].

(** What the trace gains when a pipeline entry is skipped. *)
Definition warning_events (options : BuildOptions) : list event :=
  spinner_events options SpinnerStop
  ++ [Log LWarn msg_not_a_function]
  ++ spinner_events options SpinnerStart.

(** The pipeline in the words of its description: the accumulator starts
    at [acc]; each stage in declared order is invoked with the
    configuration, the file descriptor and the current accumulator, and
    its return value becomes the accumulator.  The result lists the
    invocations made. *)
Fixpoint thread (cfg : ConfigData) (fd : InertFile) (pos : nat) (stages : list stage)
    (acc : value) (st : Store) : outcome value * Store * list event :=
  match stages with
  | [] => (Ret acc, st, [])
  | s :: rest =>
      match s cfg fd acc st with
      | (Ret v, st') =>
          let '(o, st'', evs) := thread cfg fd (S pos) rest v st' in
          (o, st'', StageCall pos cfg fd acc :: evs)
      | (Throw e, st') => (Throw e, st', [StageCall pos cfg fd acc])
      end
  end.

Definition is_stage_call (e : event) : bool :=
  match e with StageCall _ _ _ _ => true | _ => false end.

(** The first invocation of a stage among some events, if there is one. *)
Definition first_stage_call (evs : list event) : option event :=
  List.find is_stage_call evs.

(** The body of the loop over a folder's files, as [build_folder] has it. *)
Definition file_body (X : Externals) (options : BuildOptions) (config : InertConfig)
    (pipes : list pipe) (file : abspath) : M unit :=
  build_file X options (new_Logger options) config pipes file;; ret tt.

(** Every entry of [m] is an entry of [m'], unchanged. *)
Definition fs_le (m m' : gmap abspath node) : Prop :=
  forall q n, fs_lookup m q = Some n -> fs_lookup m' q = Some n.

(** What the trace gains when the configuration file is missing. *)
Definition invalid_project_events (X : Externals) (options : BuildOptions)
    (project_dir : abspath) : list event :=
  spinner_events options SpinnerStop
  ++ [Log LError msg_invalid_project;
      Log LError msg_create_project;
      Log LError (gray X "$" +:+ " inert " +:+ cyan X ("init " +:+ show_path project_dir))]
  ++ spinner_events options SpinnerStart.

(** What the trace gains when a source directory is missing. *)
Definition missing_dirs_events (options : BuildOptions) : list event :=
  spinner_events options SpinnerStop
  ++ [Log LError msg_missing_dirs]
  ++ spinner_events options SpinnerStart.

Definition is_mkdir (e : event) : bool :=
  match e with Mkdir _ _ => true | _ => false end.

(** The source directory of a key of [sourceDirs], as [build] resolves it. *)
Definition source_dir_path (X : Externals) (config : InertConfig)
    (project_dir : abspath) (dir : string) : abspath :=
  join project_dir (resolveSourceDir X (dirs config) dir).

Definition config_file_exists (w : World) : bool :=
  fs_exists (fs (store w)) (join (cwd w) "inert.config.js").

(** Some key of [sourceDirs] names a directory that is not on disk. *)
Definition source_dir_missing (X : Externals) (config : InertConfig) (w : World) : Prop :=
  exists dir,
    dir ∈ obj_keys (sourceDirs (dirs config)) /\
    fs_exists (fs (store w)) (source_dir_path X config (cwd w) dir) = false.

(** The output root exists and every entry of [outDirs] is a directory. *)
Definition output_dirs_exist (X : Externals) (config : InertConfig)
    (project_dir : abspath) (m : gmap abspath node) : Prop :=
  fs_exists m (join project_dir (resolveOutDir X (dirs config) ":output:")) = true /\
  forall name rel,
    obj_get (outDirs (dirs config)) name = Some rel ->
    fs_is_dir m (join project_dir (resolveOutDir X (dirs config) rel)) = true.

(** A stage that removes or replaces no entry of the file system. *)
Definition stage_keeps_entries (f : stage) : Prop :=
  forall c fd prev st o st', f c fd prev st = (o, st') -> fs_le (fs st) (fs st').

Definition pipe_keeps_entries (p : pipe) : Prop :=
  match p with
  | PFun f => stage_keeps_entries f
  | PVal _ => True
  end.

Definition stages_keep_entries (config : InertConfig) : Prop :=
  Forall (fun fld => Forall pipe_keeps_entries (filePipeline (folder_build fld)))
    (folders config).

(** The work of the folder phase, read off the trace: a discovery per
    folder and an invocation per file and stage. *)
Inductive step : Type :=
| Discover (dir : abspath) (recursive : bool)
| Invoke (pos : nat) (file : InertFile).

Definition step_of (e : event) : option step :=
  match e with
  | Traverse p _ r => Some (Discover p r)
  | StageCall pos _ fd _ => Some (Invoke pos fd)
  | _ => None
  end.

Definition steps_of (evs : list event) : list step := omap step_of evs.

(** The indices of the functions of a pipeline, counting from [pos]. *)
Fixpoint function_positions (pos : nat) (pipes : list pipe) : list nat :=
  match pipes with
  | [] => []
  | PFun _ :: rest => pos :: function_positions (S pos) rest
  | PVal _ :: rest => function_positions (S pos) rest
  end.

Definition file_steps (X : Externals) (pipes : list pipe) (file : abspath) : list step :=
  map (fun pos => Invoke pos (getFileInfo X file)) (function_positions 0 pipes).

(** All the work a folder stands for once [files] were discovered in it. *)
Definition folder_steps (X : Externals) (config : InertConfig) (project_dir : abspath)
    (fld : BuildFolder) (files : list abspath) : list step :=
  Discover (source_dir_path X config project_dir (folder fld))
           (recursive_flag (folder_build fld))
  :: flat_map (file_steps X (filePipeline (folder_build fld))) files.

(** The source directory of a folder and the output root as the log
    lines show them. *)
Definition source_dir_text (X : Externals) (config : InertConfig)
    (project_dir : abspath) (dir : string) : string :=
  join_text project_dir (resolveSourceDir X (dirs config) dir).

Definition out_dir_text (X : Externals) (config : InertConfig)
    (project_dir : abspath) : string :=
  join_text project_dir (resolveOutDir X (dirs config) ":output:").

Definition folder_header_events (X : Externals) (options : BuildOptions)
    (text : string) : list event :=
  spinner_events options SpinnerStop
  ++ [Log LVerb ("Building " +:+ cyan X text)]
  ++ spinner_events options SpinnerStart.

(** The claim of independence as it is worded: whatever happens to one
    file, every discovered file of a folder whose pipeline has a function
    gets that pipeline started. *)
Definition files_are_independent (X : Externals) (options : BuildOptions)
    (config : InertConfig) (project_dir : abspath) (fld : BuildFolder) (w : World) : Prop :=
  forall files o w',
    traverse X (fs (store w)) (source_dir_path X config project_dir (folder fld)) false
      (recursive_flag (folder_build fld)) = Ret files ->
    build_folder X options (new_Logger options) config project_dir fld w = (o, w') ->
    forall f, f ∈ files ->
      function_positions 0 (filePipeline (folder_build fld)) <> [] ->
      exists pos, Invoke pos (getFileInfo X f) ∈ steps_of (trace w').

(** The output root and the directory of a key of [outDirs], as
    [setup_output] resolves them. *)
Definition out_dir_path (X : Externals) (config : InertConfig)
    (project_dir : abspath) : abspath :=
  join project_dir (resolveOutDir X (dirs config) ":output:").

Definition out_subdir_path (X : Externals) (config : InertConfig)
    (project_dir : abspath) (outdir : string) : abspath :=
  join project_dir
    (resolveOutDir X (dirs config)
       (default "undefined" (obj_get (outDirs (dirs config)) outdir))).

(** [m'] is [m] with nothing removed or changed and only directories added. *)
Definition only_dirs_added (m m' : gmap abspath node) : Prop :=
  fs_le m m' /\
  forall q n, fs_lookup m' q = Some n -> fs_lookup m q = Some n \/ n = Dir.

(** The spinner read off a trace, for a build that was given one: a stop
    needs a running spinner, a start a stopped one, and a log line is
    only printed while it is stopped.  [None] when this is broken, else
    whether the spinner runs after the events. *)
Fixpoint spinner_after (running : bool) (evs : list event) : option bool :=
  match evs with
  | [] => Some running
  | SpinnerStop :: rest => if running then spinner_after false rest else None
  | SpinnerStart :: rest => if running then None else spinner_after true rest
  | Log _ _ :: rest => if running then None else spinner_after running rest
  | _ :: rest => spinner_after running rest
  end.

Definition is_value (p : pipe) : bool :=
  match p with PVal _ => true | PFun _ => false end.

(** The label the markdown stage shows while it works on a file. *)
Definition progress_label (L : MarkdownLibs) (file : InertFile) : value :=
  VStr ("Building markdown: " +:+ chalk_cyan L (basename file)).

(** A pipeline entry that is a markdown stage, or not a function at all. *)
Definition markdown_pipe (L : MarkdownLibs) (p : pipe) : Prop :=
  match p with
  | PFun f => exists opts, f = markdown L opts
  | PVal _ => True
  end.

Definition markdown_only (L : MarkdownLibs) (config : InertConfig) : Prop :=
  Forall (fun fld => Forall (markdown_pipe L) (filePipeline (folder_build fld)))
    (folders config).


(** A stage under which a property of the store, once it holds, keeps
    holding: started where [P] holds, the call ends where [P] holds. *)
Definition stage_preserves (P : Store -> Prop) (f : stage) : Prop :=
  forall c fd prev st o st', f c fd prev st = (o, st') -> P st -> P st'.

Definition pipe_preserves (P : Store -> Prop) (p : pipe) : Prop :=
  match p with
  | PFun f => stage_preserves P f
  | PVal _ => True
  end.

Definition stages_preserve (P : Store -> Prop) (config : InertConfig) : Prop :=
  Forall (fun fld => Forall (pipe_preserves P) (filePipeline (folder_build fld)))
    (folders config).

(** No stage defers work: every call leaves the queue as it found it. *)
Definition stages_defer_nothing (config : InertConfig) : Prop :=
  forall q, stages_preserve (fun st => pending st = q) config.



(** ** Stepping through computations *)

Lemma elem_of_own_keys k ks : k ∈ own_keys ks <-> k ∈ ks.
Proof.
  unfold own_keys. rewrite elem_of_app, list_elem_of_fmap.
  split.
  - intros [([n k'] & -> & Hin)|Hin].
    + rewrite merge_sort_Permutation in Hin.
      apply list_elem_of_omap in Hin as (k0 & Hk0 & Hidx).
      unfold indexed in Hidx. destruct (array_index k0); inversion Hidx; by subst.
    + apply list_elem_of_In, filter_In in Hin as [Hin _]. by apply list_elem_of_In.
  - intros Hin. destruct (array_index k) as [n|] eqn:E.
    + left. exists (n, k). split; [done|].
      rewrite merge_sort_Permutation. apply list_elem_of_omap.
      exists k. split; [done|]. unfold indexed. by rewrite E.
    + right. apply list_elem_of_In, filter_In. split; [by apply list_elem_of_In|].
      unfold is_named. by rewrite E.
Qed.

Lemma run_eq {A B} (r : A * B) (a : A) : r.1 = a -> r = (a, r.2).
Proof. destruct r. simpl. by intros ->. Qed.

Lemma bind_run {A B} (m : M A) (k : A -> M B) (w : World) :
  (m ≫= k) w =
  match m w with
  | (Ret a, w') => k a w'
  | (Throw e, w') => (Throw e, w')
  end.
Proof. reflexivity. Qed.

Lemma bind_ret_inv {A B} (m : M A) (k : A -> M B) w b w' :
  (m ≫= k) w = (Ret b, w') ->
  exists a w1, m w = (Ret a, w1) /\ k a w1 = (Ret b, w').
Proof.
  rewrite bind_run. destruct (m w) as [[a|e] w1]; intros H.
  - eauto.
  - discriminate.
Qed.

Lemma bind_throw {A B} (m : M A) (k : A -> M B) w e w' :
  m w = (Throw e, w') -> (m ≫= k) w = (Throw e, w').
Proof. intros H. rewrite bind_run, H. reflexivity. Qed.

Lemma emit_all_nil w : emit_all [] w = w.
Proof. destruct w. unfold emit_all. simpl. by rewrite app_nil_r. Qed.

Lemma emit_all_app evs1 evs2 w :
  emit_all evs2 (emit_all evs1 w) = emit_all (evs1 ++ evs2) w.
Proof. unfold emit_all. simpl. by rewrite app_assoc. Qed.

Lemma emit_emit_all e w : emit e w = emit_all [e] w.
Proof. reflexivity. Qed.

Lemma spinner_stop_run options w :
  spinner_stop options w = (Ret tt, emit_all (spinner_events options SpinnerStop) w).
Proof.
  unfold spinner_stop, spinner_events. destruct (has_spinner options).
  - reflexivity.
  - by rewrite emit_all_nil.
Qed.

Lemma spinner_start_run options w :
  spinner_start options w = (Ret tt, emit_all (spinner_events options SpinnerStart) w).
Proof.
  unfold spinner_start, spinner_events. destruct (has_spinner options).
  - reflexivity.
  - by rewrite emit_all_nil.
Qed.

Lemma log_call_run log lvl msg w :
  log_call log lvl msg w = (Ret tt, emit_all [Log lvl msg] w).
Proof. reflexivity. Qed.

Lemma for_of_app {A} (l1 l2 : list A) (body : A -> M unit) w w1 :
  for_of l1 body w = (Ret tt, w1) ->
  for_of (l1 ++ l2) body w = for_of l2 body w1.
Proof.
  revert w. induction l1 as [|x l1 IH]; intros w H; simpl in *.
  - by inversion H.
  - rewrite bind_run in *. destruct (body x w) as [[[]|e] w0]; [|discriminate].
    by apply IH.
Qed.

Lemma for_of_throw {A} (l1 l2 : list A) (x : A) (body : A -> M unit) w w1 e w2 :
  for_of l1 body w = (Ret tt, w1) ->
  body x w1 = (Throw e, w2) ->
  for_of (l1 ++ x :: l2) body w = (Throw e, w2).
Proof.
  intros H1 H2. rewrite (for_of_app _ _ _ _ _ H1). simpl.
  by apply bind_throw.
Qed.

(** ** The file system operations *)

Lemma fs_le_refl m : fs_le m m.
Proof. by intros q n H. Qed.

Lemma fs_le_trans m1 m2 m3 : fs_le m1 m2 -> fs_le m2 m3 -> fs_le m1 m3.
Proof. intros H12 H23 q n H. by apply H23, H12. Qed.

Lemma fs_le_exists m m' p :
  fs_le m m' -> fs_exists m p = true -> fs_exists m' p = true.
Proof.
  unfold fs_exists. intros Hle H.
  apply bool_decide_eq_true in H as [n Hn].
  apply bool_decide_eq_true. exists n. by apply Hle.
Qed.

Lemma fs_le_is_dir m m' p :
  fs_le m m' -> fs_is_dir m p = true -> fs_is_dir m' p = true.
Proof.
  unfold fs_is_dir. intros Hle H.
  destruct (fs_lookup m p) as [[|c]|] eqn:E; try discriminate.
  by rewrite (Hle _ _ E).
Qed.

Lemma fs_is_dir_exists m p : fs_is_dir m p = true -> fs_exists m p = true.
Proof.
  unfold fs_is_dir, fs_exists. intros H. apply bool_decide_eq_true.
  destruct (fs_lookup m p); [eauto | discriminate].
Qed.

Lemma fs_le_insert_fresh m p n :
  fs_lookup m p = None -> fs_le m (<[p := n]> m).
Proof.
  intros Hp q k Hq. destruct q as [|s q].
  - exact Hq.
  - simpl in *. destruct (decide (p = s :: q)) as [->|Hne].
    + simpl in Hp. congruence.
    + by rewrite lookup_insert_ne.
Qed.

Lemma fs_lookup_insert m p n : p <> [] -> fs_lookup (<[p := n]> m) p = Some n.
Proof. destruct p; [done|]. intros _. simpl. apply lookup_insert_eq. Qed.

Lemma fs_mkdir_ok m p m' :
  fs_mkdir m p = Ret m' -> fs_is_dir m' p = true /\ fs_le m m'.
Proof.
  unfold fs_mkdir. destruct (fs_lookup m p) eqn:Hp; [discriminate|].
  destruct (fs_lookup m (removelast p)) as [[|c]|]; try discriminate.
  intros H. inversion H; subst. split.
  - unfold fs_is_dir. rewrite fs_lookup_insert; [done|].
    intros ->. discriminate.
  - by apply fs_le_insert_fresh.
Qed.

Lemma fs_mkdir_rec_ok rest : forall m done m',
  fs_mkdir_rec m done rest = Ret m' ->
  fs_le m m' /\ (rest <> [] -> fs_is_dir m' (done ++ rest) = true).
Proof.
  induction rest as [|seg rest IH]; intros m done m' H; simpl in H.
  - inversion H; subst. split; [apply fs_le_refl | done].
  - destruct (fs_lookup m (done ++ [seg])) as [[|c]|] eqn:Hq; try discriminate.
    + apply IH in H as [Hle Hdir]. split; [done|]. intros _.
      destruct rest as [|seg' rest].
      * apply (fs_le_is_dir m); [done|]. unfold fs_is_dir. by rewrite Hq.
      * rewrite (cons_middle seg), app_assoc. by apply Hdir.
    + apply IH in H as [Hle Hdir]. split.
      * eapply fs_le_trans; [|exact Hle]. by apply fs_le_insert_fresh.
      * intros _. destruct rest as [|seg' rest].
        -- apply (fs_le_is_dir (<[done ++ [seg] := Dir]> m)); [done|].
           unfold fs_is_dir. rewrite fs_lookup_insert; [done|].
           by destruct done.
        -- rewrite (cons_middle seg), app_assoc. by apply Hdir.
Qed.

Lemma fs_mkdirp_ok m p m' :
  fs_mkdirp m p = Ret m' -> fs_is_dir m' p = true /\ fs_le m m'.
Proof.
  unfold fs_mkdirp. intros H. apply fs_mkdir_rec_ok in H as [Hle Hdir].
  split; [|done]. destruct p as [|s p]; [reflexivity|]. by apply Hdir.
Qed.

Section BuildFacts.

Variable X : Externals.
Variable options : BuildOptions.
Variable config : InertConfig.

Let log := new_Logger options.
Let cfg := dirs config.

(** *** The pipeline loop *)

Lemma run_pipeline_skip file pos v rest acc w :
  run_pipeline X options log config file pos (PVal v :: rest) acc w =
  run_pipeline X options log config file (S pos) rest acc
    (emit_all (warning_events options) w).
Proof.
  simpl. rewrite bind_run, spinner_stop_run.
  rewrite bind_run, log_call_run.
  rewrite bind_run, spinner_start_run.
  unfold warning_events. by rewrite !emit_all_app.
Qed.

Lemma run_pipeline_call file pos f rest acc w :
  run_pipeline X options log config file pos (PFun f :: rest) acc w =
  match f cfg (getFileInfo X file) acc (store w) with
  | (Ret v, st) =>
      run_pipeline X options log config file (S pos) rest v
        (with_store st (emit_all [StageCall pos cfg (getFileInfo X file) acc] w))
  | (Throw e, st) =>
      (Throw e, with_store st (emit_all [StageCall pos cfg (getFileInfo X file) acc] w))
  end.
Proof.
  simpl. rewrite bind_run. unfold call_stage. subst cfg.
  destruct (f (dirs config) (getFileInfo X file) acc (store w)) as [[v|e] st]; reflexivity.
Qed.

Lemma run_pipeline_app file pre post pos acc w a w1 :
  run_pipeline X options log config file pos pre acc w = (Ret a, w1) ->
  run_pipeline X options log config file pos (pre ++ post) acc w =
  run_pipeline X options log config file (pos + length pre) post a w1.
Proof.
  revert pos acc w. induction pre as [|p pre IH]; intros pos acc w H.
  - simpl in H. inversion H; subst. simpl. by rewrite Nat.add_0_r.
  - destruct p as [f|v].
    + rewrite <- app_comm_cons, run_pipeline_call. rewrite run_pipeline_call in H.
      destruct (f cfg (getFileInfo X file) acc (store w)) as [[r|e] st]; [|discriminate].
      rewrite (IH _ _ _ H). simpl. f_equal. lia.
    + rewrite <- app_comm_cons, run_pipeline_skip. rewrite run_pipeline_skip in H.
      rewrite (IH _ _ _ H). simpl. f_equal. lia.
Qed.

Lemma run_pipeline_functions file stages pos acc w :
  run_pipeline X options log config file pos (map PFun stages) acc w =
  let '(o, st, evs) := thread cfg (getFileInfo X file) pos stages acc (store w) in
  (o, with_store st (emit_all evs w)).
Proof.
  revert pos acc w. induction stages as [|s stages IH]; intros pos acc w.
  - simpl. unfold ret. f_equal. destruct w as [[? ?] ? ?].
    unfold with_store, emit_all. simpl. by rewrite app_nil_r.
  - simpl map. rewrite run_pipeline_call. simpl thread.
    destruct (s cfg (getFileInfo X file) acc (store w)) as [[v|e] st].
    + rewrite IH. simpl.
      destruct (thread cfg (getFileInfo X file) (S pos) stages v st) as [[o st'] evs].
      f_equal. unfold with_store, emit_all. simpl. by rewrite <- app_assoc.
    + reflexivity.
Qed.


Lemma first_stage_call_warning evs :
  first_stage_call (warning_events options ++ evs) = first_stage_call evs.
Proof.
  unfold warning_events, spinner_events, first_stage_call.
  destruct (has_spinner options); reflexivity.
Qed.

(** Whatever a pipeline run does, its trace only grows, and the first
    stage it invokes receives the accumulator the run started with. *)
Lemma run_pipeline_first_call file pipes pos acc w o w' :
  run_pipeline X options log config file pos pipes acc w = (o, w') ->
  exists evs,
    trace w' = trace w ++ evs /\
    forall p c fd prev,
      first_stage_call evs = Some (StageCall p c fd prev) ->
      prev = acc /\ c = cfg /\ fd = getFileInfo X file.
Proof.
  revert pos acc w. induction pipes as [|[f|v] pipes IH]; intros pos acc w H.
  - simpl in H. inversion H; subst. exists []. split.
    + by rewrite app_nil_r.
    + discriminate.
  - rewrite run_pipeline_call in H.
    destruct (f cfg (getFileInfo X file) acc (store w)) as [[r|e] st].
    + apply IH in H as (evs & Htr & _). simpl in Htr.
      exists (StageCall pos cfg (getFileInfo X file) acc :: evs). split.
      * by rewrite Htr, <- app_assoc.
      * intros p c fd prev Hfirst. simpl in Hfirst. by inversion Hfirst.
    + inversion H; subst. exists [StageCall pos cfg (getFileInfo X file) acc]. split.
      * reflexivity.
      * intros p c fd prev Hfirst. simpl in Hfirst. by inversion Hfirst.
  - rewrite run_pipeline_skip in H.
    apply IH in H as (evs & Htr & Hfirst). simpl in Htr.
    exists (warning_events options ++ evs). split.
    + by rewrite Htr, <- app_assoc.
    + intros p c fd prev. rewrite first_stage_call_warning. apply Hfirst.
Qed.

Lemma build_file_first_call pipes file w o w' :
  build_file X options log config pipes file w = (o, w') ->
  exists evs,
    trace w' = trace w ++ evs /\
    forall p c fd prev,
      first_stage_call evs = Some (StageCall p c fd prev) -> prev = VUndefined.
Proof.
  unfold build_file. intros H.
  apply run_pipeline_first_call in H as (evs & Htr & Hfirst).
  exists evs. split; [done|].
  intros p c fd prev Hp. by apply Hfirst in Hp as [? _].
Qed.

Lemma file_body_run pipes file w :
  file_body X options config pipes file w =
  match build_file X options log config pipes file w with
  | (Ret _, w') => (Ret tt, w')
  | (Throw e, w') => (Throw e, w')
  end.
Proof. reflexivity. Qed.

(** *** Pipeline execution *)

(** C2. For a pipeline whose entries are all functions, running it for a
    file is the threading of an accumulator that starts as [undefined]:
    each stage, in declared order, is called with the configuration, the
    file descriptor and the current accumulator, and what it returns is
    the next accumulator.  For three stages: the second receives what the
    first returned, the third what the second returned, and the third's
    return value is the result. *)
Theorem pipeline_threads_accumulator (file : abspath) (w : World) :
  (forall stages : list stage,
     build_file X options log config (map PFun stages) file w =
     let '(o, st, evs) :=
       thread cfg (getFileInfo X file) 0 stages VUndefined (store w) in
     (o, with_store st (emit_all evs w)))
  /\
  (forall (s1 s2 s3 : stage) r1 st1 r2 st2 r3 st3,
     s1 cfg (getFileInfo X file) VUndefined (store w) = (Ret r1, st1) ->
     s2 cfg (getFileInfo X file) r1 st1 = (Ret r2, st2) ->
     s3 cfg (getFileInfo X file) r2 st2 = (Ret r3, st3) ->
     build_file X options log config [PFun s1; PFun s2; PFun s3] file w =
     (Ret r3,
      with_store st3
        (emit_all
           [StageCall 0 cfg (getFileInfo X file) VUndefined;
            StageCall 1 cfg (getFileInfo X file) r1;
            StageCall 2 cfg (getFileInfo X file) r2] w))).
Proof.
  split.
  - intros stages. apply run_pipeline_functions.
  - intros s1 s2 s3 r1 st1 r2 st2 r3 st3 H1 H2 H3.
    unfold build_file.
    change [PFun s1; PFun s2; PFun s3] with (map PFun [s1; s2; s3]).
    rewrite run_pipeline_functions. simpl thread.
    rewrite H1, H2, H3. reflexivity.
Qed.

(** C3. An entry that is not a function is skipped: a warning is logged,
    the accumulator that reaches it is the accumulator that leaves it, and
    the entries after it run as usual.  With such an entry in the middle
    of three, the first and the third are both called and the third
    receives what the first returned. *)
Theorem non_function_entry_is_skipped (file : abspath) (w : World) :
  (forall pre v post a w1,
     run_pipeline X options log config file 0 pre VUndefined w = (Ret a, w1) ->
     build_file X options log config (pre ++ PVal v :: post) file w =
     run_pipeline X options log config file (S (length pre)) post a
       (emit_all (warning_events options) w1))
  /\
  (forall (s1 s3 : stage) v r1 st1 r3 st3,
     s1 cfg (getFileInfo X file) VUndefined (store w) = (Ret r1, st1) ->
     s3 cfg (getFileInfo X file) r1 st1 = (Ret r3, st3) ->
     build_file X options log config [PFun s1; PVal v; PFun s3] file w =
     (Ret r3,
      with_store st3
        (emit_all
           ([StageCall 0 cfg (getFileInfo X file) VUndefined]
            ++ warning_events options
            ++ [StageCall 2 cfg (getFileInfo X file) r1]) w))).
Proof.
  split.
  - intros pre v post a w1 H. unfold build_file.
    rewrite (run_pipeline_app _ _ _ _ _ _ _ _ H), Nat.add_0_l.
    apply run_pipeline_skip.
  - intros s1 s3 v r1 st1 r3 st3 H1 H3. unfold build_file.
    rewrite run_pipeline_call, H1. cbv beta iota.
    rewrite run_pipeline_skip, run_pipeline_call.
    simpl store. rewrite H3. simpl. unfold ret. f_equal.
    unfold with_store, emit_all. simpl. f_equal.
    by rewrite <- !app_assoc.
Qed.

(** *** The loop over a folder's files *)

(** C9. Whatever the files before it did, a file's pipeline starts with a
    fresh accumulator: in the loop over a folder's files, once the files
    before [f] are done, the run for [f] is the pipeline started at
    [undefined], and the first stage it calls receives [undefined]. *)
Theorem accumulator_is_fresh_per_file (pipes : list pipe)
    (before after : list abspath) (f : abspath) (w w1 w2 : World) (o : outcome value) :
  for_of before (file_body X options config pipes) w = (Ret tt, w1) ->
  build_file X options log config pipes f w1 = (o, w2) ->
  for_of (before ++ f :: after) (file_body X options config pipes) w =
    match o with
    | Ret _ => for_of after (file_body X options config pipes) w2
    | Throw e => (Throw e, w2)
    end
  /\ run_pipeline X options log config f 0 pipes VUndefined w1 = (o, w2)
  /\ exists evs,
       trace w2 = trace w1 ++ evs /\
       forall pos c fd prev,
         first_stage_call evs = Some (StageCall pos c fd prev) ->
         prev = VUndefined.
Proof.
  intros Hbefore Hf. split; [|split].
  - rewrite (for_of_app _ _ _ _ _ Hbefore). simpl.
    rewrite bind_run, file_body_run, Hf. by destruct o.
  - exact Hf.
  - by apply build_file_first_call in Hf.
Qed.


(** *** The guards of [build] *)

Lemma some_false_map {A} (g : A -> bool) (l : list A) :
  existsb (fun v => Bool.eqb v false) (map g l) = existsb (fun d => negb (g d)) l.
Proof.
  induction l as [|d l IH]; [reflexivity|].
  simpl. rewrite IH. by destruct (g d).
Qed.

Lemma map_m_existsSync (g : string -> abspath) (l : list string) w :
  map_m (fun d => existsSync (g d)) l w =
  (Ret (map (fun d => fs_exists (fs (store w)) (g d)) l), w).
Proof.
  induction l as [|d l IH]; [reflexivity|].
  simpl. rewrite bind_run. unfold existsSync at 1.
  rewrite bind_run, IH. reflexivity.
Qed.

Lemma some_source_dir_missing_run w :
  some_source_dir_missing X config (cwd w) w =
  (Ret (existsb
          (fun d => negb (fs_exists (fs (store w)) (source_dir_path X config (cwd w) d)))
          (obj_keys (sourceDirs cfg))),
   w).
Proof.
  unfold some_source_dir_missing.
  rewrite bind_run, (map_m_existsSync (source_dir_path X config (cwd w))).
  unfold ret. by rewrite some_false_map.
Qed.

Lemma source_dir_missing_existsb w :
  source_dir_missing X config w <->
  existsb
    (fun d => negb (fs_exists (fs (store w)) (source_dir_path X config (cwd w) d)))
    (obj_keys (sourceDirs cfg)) = true.
Proof.
  unfold source_dir_missing. rewrite existsb_exists. split.
  - intros (d & Hin & Hd). exists d. split.
    + by apply list_elem_of_In.
    + by rewrite Hd.
  - intros (d & Hin & Hd). exists d. split.
    + by apply list_elem_of_In.
    + by apply negb_true_iff.
Qed.

Lemma build_without_config w :
  config_file_exists w = false ->
  build X options config w =
  (Ret false, emit_all (invalid_project_events X options (cwd w)) w).
Proof.
  unfold config_file_exists. intros Hcfg. unfold build.
  rewrite bind_run. unfold process_cwd at 1.
  rewrite bind_run. unfold existsSync at 1. rewrite Hcfg. cbv beta iota.
  change (negb false) with true. cbv iota.
  rewrite bind_run, spinner_stop_run.
  rewrite bind_run, log_call_run.
  rewrite bind_run, log_call_run.
  rewrite bind_run, log_call_run.
  rewrite bind_run, spinner_start_run.
  unfold ret, invalid_project_events. by rewrite !emit_all_app.
Qed.

Lemma build_with_config w :
  config_file_exists w = true ->
  build X options config w =
  if existsb
       (fun d => negb (fs_exists (fs (store w)) (source_dir_path X config (cwd w) d)))
       (obj_keys (sourceDirs cfg))
  then (Ret false, emit_all (missing_dirs_events options) w)
  else
    (setup_output X options log config (cwd w);;
     for_of (folders config) (build_folder X options log config (cwd w));;
     ret true) w.
Proof.
  unfold config_file_exists. intros Hcfg. unfold build.
  rewrite bind_run. unfold process_cwd at 1.
  rewrite bind_run. unfold existsSync at 1. rewrite Hcfg. cbv beta iota.
  change (negb true) with false. cbv iota.
  rewrite bind_run, some_source_dir_missing_run.
  destruct (existsb _ _); [|reflexivity].
  rewrite bind_run, spinner_stop_run.
  rewrite bind_run, log_call_run.
  rewrite bind_run, spinner_start_run.
  unfold ret, missing_dirs_events. by rewrite !emit_all_app.
Qed.

Lemma no_mkdir_in_spinner_events e :
  is_mkdir e = false -> Forall (fun e => is_mkdir e = false) (spinner_events options e).
Proof. intros H. unfold spinner_events. destruct (has_spinner options); by repeat constructor. Qed.

Lemma no_mkdir_in_diagnostics pd :
  Forall (fun e => is_mkdir e = false) (invalid_project_events X options pd) /\
  Forall (fun e => is_mkdir e = false) (missing_dirs_events options).
Proof.
  unfold invalid_project_events, missing_dirs_events.
  split; repeat (apply Forall_app; split);
    try (by apply no_mkdir_in_spinner_events); by repeat constructor.
Qed.

(** C8. Without an [inert.config.js] in the project root, [build] stops at
    once: it returns [false] having done nothing but print its three
    diagnostics.  And neither precondition failure (no configuration
    file, a missing source directory) throws: each one is a normal return
    of [false]. *)
Theorem missing_configuration_returns_false (w : World) :
  (config_file_exists w = false ->
   build X options config w =
   (Ret false, emit_all (invalid_project_events X options (cwd w)) w))
  /\
  (config_file_exists w = false \/ source_dir_missing X config w ->
   exists evs, build X options config w = (Ret false, emit_all evs w)).
Proof.
  split; [apply build_without_config|].
  destruct (config_file_exists w) eqn:Hcfg.
  - intros [?|Hmiss]; [discriminate|].
    apply source_dir_missing_existsb in Hmiss.
    rewrite (build_with_config _ Hcfg), Hmiss. eauto.
  - intros _. rewrite (build_without_config _ Hcfg). eauto.
Qed.

(** C4. When some key of [sourceDirs] names a directory that is not on
    disk, [build] returns [false] and the file system is as it was: no
    [mkdir] is issued, for the output root or for any entry of [outDirs]. *)
Theorem missing_source_dir_creates_nothing (w : World) :
  source_dir_missing X config w ->
  exists evs,
    build X options config w = (Ret false, emit_all evs w) /\
    store (emit_all evs w) = store w /\
    Forall (fun e => is_mkdir e = false) evs.
Proof.
  intros Hmiss. destruct (config_file_exists w) eqn:Hcfg.
  - apply source_dir_missing_existsb in Hmiss.
    rewrite (build_with_config _ Hcfg), Hmiss.
    exists (missing_dirs_events options). split; [done|]. split; [done|].
    apply (no_mkdir_in_diagnostics []).
  - rewrite (build_without_config _ Hcfg).
    exists (invalid_project_events X options (cwd w)). split; [done|]. split; [done|].
    apply no_mkdir_in_diagnostics.
Qed.


(** *** Reading the work off the trace *)

Lemma steps_of_app evs1 evs2 :
  steps_of (evs1 ++ evs2) = steps_of evs1 ++ steps_of evs2.
Proof. apply omap_app. Qed.

Lemma steps_of_spinner_events e :
  step_of e = None -> steps_of (spinner_events options e) = [].
Proof.
  intros H. unfold spinner_events. destruct (has_spinner options); [|reflexivity].
  unfold steps_of. simpl. by rewrite H.
Qed.

Lemma steps_of_warning_events : steps_of (warning_events options) = [].
Proof.
  unfold warning_events.
  by rewrite !steps_of_app, !steps_of_spinner_events.
Qed.

Lemma steps_of_folder_header p : steps_of (folder_header_events X options p) = [].
Proof.
  unfold folder_header_events.
  by rewrite !steps_of_app, !steps_of_spinner_events.
Qed.

Lemma run_pipeline_steps file pipes pos acc w v w' :
  run_pipeline X options log config file pos pipes acc w = (Ret v, w') ->
  exists evs,
    trace w' = trace w ++ evs /\
    steps_of evs =
      map (fun p => Invoke p (getFileInfo X file)) (function_positions pos pipes).
Proof.
  revert pos acc w. induction pipes as [|[f|x] pipes IH]; intros pos acc w H.
  - simpl in H. inversion H; subst. exists []. by rewrite app_nil_r.
  - rewrite run_pipeline_call in H.
    destruct (f cfg (getFileInfo X file) acc (store w)) as [[r|e] st]; [|discriminate].
    apply IH in H as (evs & Htr & Hsteps). simpl in Htr.
    exists (StageCall pos cfg (getFileInfo X file) acc :: evs). split.
    + by rewrite Htr, <- app_assoc.
    + simpl. unfold steps_of in *. simpl. by rewrite Hsteps.
  - rewrite run_pipeline_skip in H.
    apply IH in H as (evs & Htr & Hsteps). simpl in Htr.
    exists (warning_events options ++ evs). split.
    + by rewrite Htr, <- app_assoc.
    + by rewrite steps_of_app, steps_of_warning_events.
Qed.

Lemma file_loop_steps pipes files w w' :
  for_of files (file_body X options config pipes) w = (Ret tt, w') ->
  exists evs,
    trace w' = trace w ++ evs /\
    steps_of evs = flat_map (file_steps X pipes) files.
Proof.
  revert w. induction files as [|file files IH]; intros w H.
  - simpl in H. inversion H; subst. exists []. by rewrite app_nil_r.
  - simpl in H. apply bind_ret_inv in H as ([] & w1 & Hfile & Hrest).
    rewrite file_body_run in Hfile.
    destruct (build_file X options log config pipes file w) as [[v|e] w0] eqn:Hrun;
      [|discriminate].
    inversion Hfile; subst w0.
    apply run_pipeline_steps in Hrun as (evs1 & Htr1 & Hsteps1).
    apply IH in Hrest as (evs2 & Htr2 & Hsteps2).
    exists (evs1 ++ evs2). split.
    + by rewrite Htr2, Htr1, <- app_assoc.
    + simpl. rewrite steps_of_app, Hsteps1, Hsteps2. reflexivity.
Qed.

Lemma build_folder_run pd fld w :
  build_folder X options log config pd fld w =
  let p := source_dir_path X config pd (folder fld) in
  let flag := recursive_flag (folder_build fld) in
  let w1 :=
    emit_all
      (folder_header_events X options (source_dir_text X config pd (folder fld))
       ++ [Traverse p false flag]) w in
  match traverse X (fs (store w)) p false flag with
  | Ret files => for_of files (file_body X options config (filePipeline (folder_build fld))) w1
  | Throw e => (Throw e, w1)
  end.
Proof.
  unfold build_folder.
  rewrite bind_run, spinner_stop_run.
  rewrite bind_run, log_call_run.
  rewrite bind_run, spinner_start_run.
  rewrite bind_run. unfold call_traverse at 1. simpl store.
  rewrite emit_emit_all, !emit_all_app.
  unfold folder_header_events, source_dir_path, source_dir_text.
  rewrite <- !app_assoc.
  destruct (traverse X _ _ _ _); reflexivity.
Qed.

Lemma build_folder_steps pd fld w w' :
  build_folder X options log config pd fld w = (Ret tt, w') ->
  exists files evs,
    traverse X (fs (store w)) (source_dir_path X config pd (folder fld)) false
      (recursive_flag (folder_build fld)) = Ret files /\
    trace w' = trace w ++ evs /\
    steps_of evs = folder_steps X config pd fld files.
Proof.
  rewrite build_folder_run. cbv zeta.
  destruct (traverse X _ _ _ _) as [files|e]; [|discriminate].
  intros H. apply file_loop_steps in H as (evs & Htr & Hsteps). simpl in Htr.
  exists files.
  exists ((folder_header_events X options (source_dir_text X config pd (folder fld))
           ++ [Traverse (source_dir_path X config pd (folder fld)) false
                 (recursive_flag (folder_build fld))]) ++ evs).
  split; [done|]. split.
  - by rewrite Htr, <- app_assoc.
  - rewrite !steps_of_app, steps_of_folder_header, Hsteps. reflexivity.
Qed.

Lemma folder_loop_steps pd flds w w' :
  for_of flds (build_folder X options log config pd) w = (Ret tt, w') ->
  exists discovered evs,
    length discovered = length flds /\
    trace w' = trace w ++ evs /\
    steps_of evs = concat (zip_with (folder_steps X config pd) flds discovered).
Proof.
  revert w. induction flds as [|fld flds IH]; intros w H.
  - simpl in H. inversion H; subst. exists [], []. by rewrite app_nil_r.
  - simpl in H. apply bind_ret_inv in H as ([] & w1 & Hfld & Hrest).
    apply build_folder_steps in Hfld as (files & evs1 & _ & Htr1 & Hsteps1).
    apply IH in Hrest as (discovered & evs2 & Hlen & Htr2 & Hsteps2).
    exists (files :: discovered), (evs1 ++ evs2). split; [|split].
    + simpl. by rewrite Hlen.
    + by rewrite Htr2, Htr1, <- app_assoc.
    + simpl. by rewrite steps_of_app, Hsteps1, Hsteps2.
Qed.


(** *** The setup of the output directories *)

Lemma obj_get_key {A} (o : list (string * A)) k v :
  obj_get o k = Some v -> k ∈ obj_keys o.
Proof.
  intros H. apply elem_of_own_keys. revert H.
  induction o as [|[k' v'] o IH]; [discriminate|].
  simpl. destruct (String.eqb k' k) eqn:E.
  - intros _. apply String.eqb_eq in E as ->. apply list_elem_of_here.
  - intros H. apply list_elem_of_further. by apply IH.
Qed.

Lemma mkdir_ok p r w w' :
  mkdir p r w = (Ret tt, w') ->
  fs_is_dir (fs (store w')) p = true /\
  fs_le (fs (store w)) (fs (store w')) /\
  trace w' = trace w ++ [Mkdir p r].
Proof.
  unfold mkdir. destruct r.
  - destruct (fs_mkdirp (fs (store w)) p) as [m|e] eqn:E; [|discriminate].
    intros H. inversion H; subst. simpl. by apply fs_mkdirp_ok in E as [? ?].
  - destruct (fs_mkdir (fs (store w)) p) as [m|e] eqn:E; [|discriminate].
    intros H. inversion H; subst. simpl. by apply fs_mkdir_ok in E as [? ?].
Qed.

Lemma mkdir_loop_ok (g : string -> abspath) (ks : list string) w w' :
  for_of ks (fun k => mkdir (g k) true) w = (Ret tt, w') ->
  fs_le (fs (store w)) (fs (store w')) /\
  (forall k, k ∈ ks -> fs_is_dir (fs (store w')) (g k) = true) /\
  exists evs, trace w' = trace w ++ evs /\ steps_of evs = [].
Proof.
  revert w. induction ks as [|k ks IH]; intros w H.
  - simpl in H. inversion H; subst. split; [apply fs_le_refl|]. split.
    + intros k Hk. by apply elem_of_nil in Hk.
    + exists []. by rewrite app_nil_r.
  - simpl in H. apply bind_ret_inv in H as ([] & w1 & Hk & Hrest).
    apply mkdir_ok in Hk as (Hdir & Hle1 & Htr1).
    apply IH in Hrest as (Hle2 & Hdirs & evs & Htr2 & Hsteps).
    split; [by eapply fs_le_trans|]. split.
    + intros k' Hk'. apply elem_of_cons in Hk' as [->|Hk'].
      * by apply (fs_le_is_dir _ _ _ Hle2).
      * by apply Hdirs.
    + exists (Mkdir (g k) true :: evs). split.
      * by rewrite Htr2, Htr1, <- app_assoc.
      * exact Hsteps.
Qed.

Lemma setup_output_ok pd w w' :
  setup_output X options log config pd w = (Ret tt, w') ->
  output_dirs_exist X config pd (fs (store w')) /\
  fs_le (fs (store w)) (fs (store w')) /\
  exists evs, trace w' = trace w ++ evs /\ steps_of evs = [].
Proof.
  unfold setup_output. intros H.
  apply bind_ret_inv in H as ([] & w1 & H1 & H).
  rewrite spinner_stop_run in H1. inversion H1; subst w1; clear H1.
  apply bind_ret_inv in H as (e & w2 & H2 & H).
  unfold existsSync in H2. inversion H2; subst e w2; clear H2.
  apply bind_ret_inv in H as ([] & w3 & H3 & H).
  apply bind_ret_inv in H as ([] & w4 & H4 & H5).
  rewrite spinner_start_run in H5. inversion H5; subst w'; clear H5.
  apply mkdir_loop_ok in H4 as (Hle4 & Hdirs & evs4 & Htr4 & Hsteps4).
  assert (fs_exists (fs (store w3))
            (join pd (resolveOutDir X (dirs config) ":output:")) = true /\
          fs_le (fs (store w)) (fs (store w3)) /\
          exists evs, trace w3 = trace w ++ evs /\ steps_of evs = [])
    as (Hroot & Hle3 & evs3 & Htr3 & Hsteps3).
  { simpl store in H3.
    destruct (fs_exists (fs (store w))
                (join pd (resolveOutDir X (dirs config) ":output:"))) eqn:Hex.
    - rewrite log_call_run in H3. inversion H3; subst w3. simpl.
      split; [done|]. split; [apply fs_le_refl|].
      eexists. split; [by rewrite <- app_assoc|].
      by rewrite steps_of_app, steps_of_spinner_events.
    - apply bind_ret_inv in H3 as ([] & w0 & Hlog & Hmk).
      rewrite log_call_run in Hlog. inversion Hlog; subst w0.
      apply mkdir_ok in Hmk as (Hdir & Hle & Htr). simpl in Hle, Htr.
      split; [by apply fs_is_dir_exists|]. split; [done|].
      eexists. split; [by rewrite Htr, <- !app_assoc|].
      by rewrite !steps_of_app, steps_of_spinner_events. }
  simpl. split; [split|split].
  - by apply (fs_le_exists _ _ _ Hle4).
  - intros name rel Hget.
    specialize (Hdirs name (obj_get_key _ _ _ Hget)).
    by rewrite Hget in Hdirs.
  - by eapply fs_le_trans.
  - exists (evs3 ++ evs4 ++ spinner_events options SpinnerStart). split.
    + by rewrite Htr4, Htr3, <- !app_assoc.
    + by rewrite !steps_of_app, Hsteps3, Hsteps4, steps_of_spinner_events.
Qed.

Lemma build_true_inv w w' :
  build X options config w = (Ret true, w') ->
  config_file_exists w = true /\
  ~ source_dir_missing X config w /\
  exists w0,
    setup_output X options log config (cwd w) w = (Ret tt, w0) /\
    for_of (folders config) (build_folder X options log config (cwd w)) w0 = (Ret tt, w').
Proof.
  intros H. destruct (config_file_exists w) eqn:Hcfg.
  - rewrite (build_with_config _ Hcfg) in H. split; [done|].
    rewrite source_dir_missing_existsb.
    destruct (existsb _ _); [discriminate|]. split; [done|].
    apply bind_ret_inv in H as ([] & w0 & Hsetup & H).
    apply bind_ret_inv in H as ([] & w1 & Hloop & H).
    inversion H; subst w1. eauto.
  - rewrite (build_without_config _ Hcfg) in H. discriminate.
Qed.

(** *** Stages that keep the entries of the file system *)

Lemma run_pipeline_keeps file pipes pos acc w o w' :
  Forall pipe_keeps_entries pipes ->
  run_pipeline X options log config file pos pipes acc w = (o, w') ->
  fs_le (fs (store w)) (fs (store w')).
Proof.
  intros Hkeep. revert pos acc w.
  induction Hkeep as [|[f|x] pipes Hp _ IH]; intros pos acc w H.
  - simpl in H. inversion H; subst. apply fs_le_refl.
  - rewrite run_pipeline_call in H.
    destruct (f cfg (getFileInfo X file) acc (store w)) as [[r|e] st] eqn:Hf;
      apply Hp in Hf.
    + apply IH in H. simpl in H. by eapply fs_le_trans.
    + inversion H; subst. exact Hf.
  - rewrite run_pipeline_skip in H. by apply IH in H.
Qed.

Lemma file_loop_keeps pipes files w o w' :
  Forall pipe_keeps_entries pipes ->
  for_of files (file_body X options config pipes) w = (o, w') ->
  fs_le (fs (store w)) (fs (store w')).
Proof.
  intros Hkeep. revert w. induction files as [|file files IH]; intros w H.
  - simpl in H. inversion H; subst. apply fs_le_refl.
  - simpl in H. rewrite bind_run, file_body_run in H.
    destruct (build_file X options log config pipes file w) as [[v|e] w0] eqn:Hrun;
      apply run_pipeline_keeps in Hrun; try done.
    + apply IH in H. by eapply fs_le_trans.
    + by inversion H; subst.
Qed.

Lemma folder_loop_keeps pd flds w o w' :
  Forall (fun fld => Forall pipe_keeps_entries (filePipeline (folder_build fld))) flds ->
  for_of flds (build_folder X options log config pd) w = (o, w') ->
  fs_le (fs (store w)) (fs (store w')).
Proof.
  intros Hkeep. revert w. induction Hkeep as [|fld flds Hfld _ IH]; intros w H.
  - simpl in H. inversion H; subst. apply fs_le_refl.
  - simpl in H. rewrite bind_run, build_folder_run in H. cbv zeta in H.
    destruct (traverse X _ _ _ _) as [files|e].
    + destruct (for_of files _ _) as [[[]|e] w0] eqn:Hfiles;
        apply (file_loop_keeps _ _ _ _ _ Hfld) in Hfiles; simpl in Hfiles.
      * apply IH in H. by eapply fs_le_trans.
      * by inversion H; subst.
    + inversion H; subst. apply fs_le_refl.
Qed.


(** *** What the stages preserve *)




(** *** The directories on the way to an output directory *)







(** *** The whole build *)



(** C5, as amended.  A stage that raises while a file is processed ends
    the folder, and with it the loop over the folders: the exception
    leaves [build_folder] in the very state in which it was raised, so no
    later file is started.  The accumulators of different files share
    nothing: whenever a file is processed, the first stage called for it
    receives [undefined]. *)
Theorem stage_failure_ends_the_folder (fld : BuildFolder) (pd : abspath)
    (before after : list abspath) (f : abspath) (w w1 w2 : World) (e : error) :
  let p := source_dir_path X config pd (folder fld) in
  let flag := recursive_flag (folder_build fld) in
  let pipes := filePipeline (folder_build fld) in
  traverse X (fs (store w)) p false flag = Ret (before ++ f :: after) ->
  for_of before (file_body X options config pipes)
    (emit_all
       (folder_header_events X options (source_dir_text X config pd (folder fld))
        ++ [Traverse p false flag]) w)
    = (Ret tt, w1) ->
  build_file X options log config pipes f w1 = (Throw e, w2) ->
  build_folder X options log config pd fld w = (Throw e, w2)
  /\ (forall rest,
        for_of (fld :: rest) (build_folder X options log config pd) w = (Throw e, w2))
  /\ (forall g wg o wg',
        build_file X options log config pipes g wg = (o, wg') ->
        exists evs,
          trace wg' = trace wg ++ evs /\
          forall pos c fd prev,
            first_stage_call evs = Some (StageCall pos c fd prev) ->
            prev = VUndefined).
Proof.
  intros p flag pipes Htrav Hbefore Hf.
  assert (build_folder X options log config pd fld w = (Throw e, w2)) as Hfld.
  { rewrite build_folder_run. cbv zeta. fold p flag pipes. rewrite Htrav.
    apply (for_of_throw _ _ _ _ _ _ _ _ Hbefore).
    by rewrite file_body_run, Hf. }
  split; [done|]. split.
  - intros rest. simpl. by apply bind_throw.
  - intros g wg o wg'. apply build_file_first_call.
Qed.

End BuildFacts.

(** ** The markdown stage *)

Lemma config_spinner_set v st sp :
  config_spinner st = Some sp ->
  config_spinner (set_spinner_text v st) = Some (<["text" := v]> sp).
Proof. unfold set_spinner_text. intros H. by rewrite H. Qed.

Lemma set_spinner_text_none v st :
  config_spinner st = None -> set_spinner_text v st = st.
Proof. unfold set_spinner_text. intros H. by rewrite H. Qed.

Lemma spinner_text_of_set v st sp :
  config_spinner st = Some sp -> spinner_text_of (set_spinner_text v st) = v.
Proof.
  intros H. unfold spinner_text_of.
  rewrite (config_spinner_set _ _ _ H). by rewrite lookup_insert_eq.
Qed.

Lemma fs_set_spinner_text v st : fs (set_spinner_text v st) = fs st.
Proof. unfold set_spinner_text. by destruct (config_spinner st). Qed.

(** Writing back the text that was saved undoes the label. *)
Lemma spinner_text_restored label st :
  spinner_text_of (set_spinner_text (spinner_text_of st) (set_spinner_text label st))
  = spinner_text_of st.
Proof.
  destruct (config_spinner st) as [sp|] eqn:Hsp.
  - apply (spinner_text_of_set _ _ (<["text" := label]> sp)).
    by apply config_spinner_set.
  - rewrite (set_spinner_text_none label st Hsp).
    by rewrite (set_spinner_text_none _ st Hsp).
Qed.

Section MarkdownFacts.

Variable L : MarkdownLibs.

(** A run of the stage, read backwards: what must have happened for it to
    return. *)
Lemma markdown_ret_inv opts config file previous st v st' :
  markdown L opts config file previous st = (Ret v, st') ->
  st' = set_spinner_text (spinner_text_of st)
          (set_spinner_text
             (VStr ("Building markdown: " +:+ chalk_cyan L (basename file))) st).
Proof.
  unfold markdown.
  destruct (fs_read _ _) as [text|e]; [|discriminate].
  destruct (fm L text) as [content|e]; [|discriminate].
  destruct (render L _ _) as [body|e]; [|discriminate].
  intros H. by inversion H.
Qed.

(** C10. Whenever the markdown stage returns, [config.custom.spinner.text]
    reads as it did before the call: the progress label written at the
    start has been replaced by the saved text.  The file system is left
    as it was too. *)
Theorem markdown_restores_spinner_text
    (opts : option MarkdownItOptions) (config : ConfigData) (file : InertFile)
    (previous : value) (st st' : Store) (v : value) :
  markdown L opts config file previous st = (Ret v, st') ->
  spinner_text_of st' = spinner_text_of st /\ fs st' = fs st.
Proof.
  intros H. apply markdown_ret_inv in H as ->. split.
  - apply spinner_text_restored.
  - by rewrite !fs_set_spinner_text.
Qed.

End MarkdownFacts.

(** ** Traversal level *)

Lemma recursive_flag_true (fb : BuildFolderOptions) :
  recursive_flag fb = true <-> traverseLevel fb = Some "rescursive".
Proof.
  unfold recursive_flag. destruct (traverseLevel fb) as [s|]; [|done].
  destruct (String.eqb s "rescursive") eqn:E.
  - apply String.eqb_eq in E as ->. done.
  - apply String.eqb_neq in E. split; [done|]. intros H. inversion H. done.
Qed.

(** C1, on the fixture project.  With [traverseLevel: 'recursive'] the
    flag computed for [traverse] is [false]: only the two files directly
    in the folder are processed, although a recursive discovery of the
    same folder also finds the nested file. *)
Theorem recursive_level_is_discovered_flat :
  recursive_flag (folder_build (Fixture.posts_folder [])) = false /\
  recursive_flag {| traverseLevel := Some "recursive"; filePipeline := [] |} = false /\
  steps_of
    (trace (build Fixture.externals Fixture.options
              (Fixture.config (Some "recursive")) Fixture.world).2)
  = [Discover Fixture.posts false;
     Invoke 0 (getFileInfo Fixture.externals Fixture.b_md);
     Invoke 0 (getFileInfo Fixture.externals Fixture.a_md)] /\
  traverse_model Fixture.disk Fixture.posts false true
  = Ret [Fixture.c_md; Fixture.b_md; Fixture.a_md].
Proof. repeat split; vm_compute; reflexivity. Qed.

(** ** The theorems at work on the fixture project *)

Lemma pipeline_threads_accumulator_witness :
  let fd := getFileInfo Fixture.externals Fixture.a_md in
  let cfg := dirs (Fixture.config None) in
  build_file Fixture.externals Fixture.options (new_Logger Fixture.options)
    (Fixture.config None)
    [PFun Fixture.count_stage; PFun Fixture.count_stage; PFun Fixture.count_stage]
    Fixture.a_md Fixture.world
  = (Ret (VNum 3),
     with_store (store Fixture.world)
       (emit_all
          [StageCall 0 cfg fd VUndefined;
           StageCall 1 cfg fd (VNum 1);
           StageCall 2 cfg fd (VNum 2)] Fixture.world)).
Proof.
  intros fd cfg.
  eapply (proj2 (pipeline_threads_accumulator Fixture.externals Fixture.options
                   (Fixture.config None) Fixture.a_md Fixture.world));
    reflexivity.
Defined.

Lemma non_function_entry_is_skipped_witness :
  let fd := getFileInfo Fixture.externals Fixture.a_md in
  let cfg := dirs (Fixture.config None) in
  build_file Fixture.externals Fixture.options (new_Logger Fixture.options)
    (Fixture.config None)
    [PFun Fixture.count_stage; PVal VNull; PFun Fixture.count_stage]
    Fixture.a_md Fixture.world
  = (Ret (VNum 2),
     with_store (store Fixture.world)
       (emit_all
          ([StageCall 0 cfg fd VUndefined]
           ++ warning_events Fixture.options
           ++ [StageCall 2 cfg fd (VNum 1)]) Fixture.world)).
Proof.
  intros fd cfg.
  eapply (proj2 (non_function_entry_is_skipped Fixture.externals Fixture.options
                   (Fixture.config None) Fixture.a_md Fixture.world));
    reflexivity.
Defined.

Lemma missing_configuration_returns_false_witness :
  config_file_exists Fixture.bare_world = false /\
  build Fixture.externals Fixture.options (Fixture.config None) Fixture.bare_world
  = (Ret false,
     emit_all (invalid_project_events Fixture.externals Fixture.options ["proj"])
       Fixture.bare_world).
Proof.
  split; [reflexivity|].
  apply (proj1 (missing_configuration_returns_false Fixture.externals Fixture.options
                  (Fixture.config None) Fixture.bare_world)).
  reflexivity.
Defined.

Lemma assets_are_missing :
  source_dir_missing Fixture.externals Fixture.config_missing_assets Fixture.world.
Proof.
  exists "assets". split.
  - apply elem_of_own_keys, list_elem_of_further, list_elem_of_here.
  - reflexivity.
Defined.

Lemma missing_source_dir_creates_nothing_witness :
  exists evs,
    build Fixture.externals Fixture.options Fixture.config_missing_assets Fixture.world
    = (Ret false, emit_all evs Fixture.world) /\
    store (emit_all evs Fixture.world) = store Fixture.world /\
    Forall (fun e => is_mkdir e = false) evs.
Proof.
  apply (missing_source_dir_creates_nothing Fixture.externals Fixture.options
           Fixture.config_missing_assets Fixture.world).
  exact assets_are_missing.
Defined.

Lemma accumulator_is_fresh_per_file_witness :
  let pipes := [PFun Fixture.count_stage; PFun Fixture.count_stage] in
  let body := file_body Fixture.externals Fixture.options (Fixture.config None) pipes in
  let w1 := (for_of [Fixture.b_md] body Fixture.world).2 in
  let w2 := (build_file Fixture.externals Fixture.options (new_Logger Fixture.options)
               (Fixture.config None) pipes Fixture.a_md w1).2 in
  for_of ([Fixture.b_md] ++ Fixture.a_md :: []) body Fixture.world
  = for_of [] body w2
  /\ run_pipeline Fixture.externals Fixture.options (new_Logger Fixture.options)
       (Fixture.config None) Fixture.a_md 0 pipes VUndefined w1 = (Ret (VNum 2), w2)
  /\ exists evs,
       trace w2 = trace w1 ++ evs /\
       forall pos c fd prev,
         first_stage_call evs = Some (StageCall pos c fd prev) -> prev = VUndefined.
Proof.
  intros pipes body w1 w2.
  apply (accumulator_is_fresh_per_file Fixture.externals Fixture.options
           (Fixture.config None) pipes [Fixture.b_md] [] Fixture.a_md
           Fixture.world w1 w2 (Ret (VNum 2)));
    vm_compute; reflexivity.
Defined.

Lemma stage_failure_ends_the_folder_witness :
  let fld := Fixture.posts_folder [PFun Fixture.failing_stage] in
  let config := Fixture.config_with [PFun Fixture.failing_stage] in
  let w1 :=
    emit_all
      (folder_header_events Fixture.externals Fixture.options
         (source_dir_text Fixture.externals config ["proj"] "posts")
       ++ [Traverse Fixture.posts false false]) Fixture.world in
  let w2 := emit_all [StageCall 0 (dirs config)
                        (getFileInfo Fixture.externals Fixture.b_md) VUndefined] w1 in
  build_folder Fixture.externals Fixture.options (new_Logger Fixture.options)
    config ["proj"] fld Fixture.world = (Throw (UserError "boom"), w2).
Proof.
  intros fld config w1 w2.
  refine (proj1 (stage_failure_ends_the_folder Fixture.externals Fixture.options config
                   fld ["proj"] [] [Fixture.a_md] Fixture.b_md Fixture.world w1 w2
                   (UserError "boom") _ _ _));
    vm_compute; reflexivity.
Defined.




Lemma title_stage_defers_nothing : stages_defer_nothing (Fixture.config None).
Proof.
  intros q.
  apply Forall_singleton. simpl. apply Forall_singleton.
  intros c fd prev st o st' H Hq.
  by inversion H; subst.
Defined.


(** On the fixture the work that C7 speaks of is all there: both files
    of the folder were discovered and the one stage was called for each,
    and nothing is pending. *)
Lemma fixture_folder_work_is_done :
  steps_of
    (trace (build Fixture.externals Fixture.options (Fixture.config None)
              Fixture.world).2)
  = [Discover Fixture.posts false;
     Invoke 0 (getFileInfo Fixture.externals Fixture.b_md);
     Invoke 0 (getFileInfo Fixture.externals Fixture.a_md)] /\
  pending (store (build Fixture.externals Fixture.options (Fixture.config None)
                    Fixture.world).2) = [].
Proof. split; vm_compute; reflexivity. Qed.

Lemma markdown_restores_spinner_text_witness :
  let r := markdown Fixture.libs None (dirs (Fixture.config None))
             (getFileInfo Fixture.externals Fixture.a_md) VUndefined
             Fixture.store_with_spinner in
  r.1 = Ret (VObj [("attributes", VObj []); ("body", VStr "<p># a</p>");
                   ("bodyBegin", VNum 1)]) /\
  spinner_text_of r.2 = VStr "Building" /\
  fs r.2 = fs Fixture.store_with_spinner.
Proof.
  intros r. split; [vm_compute; reflexivity|].
  apply (markdown_restores_spinner_text Fixture.libs None (dirs (Fixture.config None))
           (getFileInfo Fixture.externals Fixture.a_md) VUndefined
           Fixture.store_with_spinner r.2
           (VObj [("attributes", VObj []); ("body", VStr "<p># a</p>");
                  ("bodyBegin", VNum 1)])).
  vm_compute. reflexivity.
Defined.

(** ** Where the descriptions overstate the code *)

(** Against C5 as worded: in the fixture project both [b.md] and [a.md]
    are discovered; the stage raises on the first of them, [build_folder]
    throws, and no stage is ever called for the other. *)
Lemma failing_file_blocks_the_next :
  ~ files_are_independent Fixture.externals Fixture.options
      (Fixture.config_with [PFun Fixture.failing_stage]) ["proj"]
      (Fixture.posts_folder [PFun Fixture.failing_stage]) Fixture.world.
Proof.
  intros H.
  destruct (H [Fixture.b_md; Fixture.a_md] (Throw (UserError "boom"))
              (build_folder Fixture.externals Fixture.options (new_Logger Fixture.options)
                 (Fixture.config_with [PFun Fixture.failing_stage]) ["proj"]
                 (Fixture.posts_folder [PFun Fixture.failing_stage]) Fixture.world).2)
    with (f := Fixture.a_md) as [pos Hin].
  - vm_compute. reflexivity.
  - vm_compute. reflexivity.
  - apply list_elem_of_further, list_elem_of_here.
  - discriminate.
  - vm_compute in Hin.
    apply elem_of_cons in Hin as [Hin|Hin]; [discriminate|].
    apply elem_of_cons in Hin as [Hin|Hin]; [discriminate|].
    by apply elem_of_nil in Hin.
Qed.



(** ** More on the pipeline loop *)

Section PipelineFacts.

Variable X : Externals.
Variable options : BuildOptions.
Variable config : InertConfig.

Let log := new_Logger options.
Let cfg := dirs config.

(** X1. Running a pipeline that is two pipelines one after the other is
    running the first and, if it returns, the second from the accumulator
    and the world the first left, its entries numbered on from the
    first's; if the first throws, that is the outcome. *)
Theorem pipeline_composes (file : abspath) (pre post : list pipe)
    (pos : nat) (acc : value) (w : World) :
  run_pipeline X options log config file pos (pre ++ post) acc w =
  match run_pipeline X options log config file pos pre acc w with
  | (Ret a, w1) => run_pipeline X options log config file (pos + length pre) post a w1
  | (Throw e, w1) => (Throw e, w1)
  end.
Proof.
  revert pos acc w. induction pre as [|[f|v] pre IH]; intros pos acc w.
  - simpl. by rewrite Nat.add_0_r.
  - rewrite <- app_comm_cons, !run_pipeline_call.
    destruct (f (dirs config) (getFileInfo X file) acc (store w)) as [[r|e] st];
      [|reflexivity].
    rewrite IH. simpl length. by rewrite Nat.add_succ_r.
  - rewrite <- app_comm_cons, !run_pipeline_skip.
    rewrite IH. simpl length. by rewrite Nat.add_succ_r.
Qed.

(** X2. When a stage throws, the pipeline throws that error in the state
    the stage left: the call is on the trace, and whatever entries come
    after the stage play no part. *)
Theorem pipeline_stops_at_failing_stage (file : abspath) (pre post : list pipe)
    (f : stage) (a : value) (w w1 : World) (e : error) (st : Store) :
  run_pipeline X options log config file 0 pre VUndefined w = (Ret a, w1) ->
  f cfg (getFileInfo X file) a (store w1) = (Throw e, st) ->
  build_file X options log config (pre ++ PFun f :: post) file w =
  (Throw e,
   with_store st
     (emit_all [StageCall (length pre) cfg (getFileInfo X file) a] w1)).
Proof.
  intros Hpre Hf. unfold build_file.
  rewrite (run_pipeline_app _ _ _ _ _ _ _ _ _ _ _ Hpre), Nat.add_0_l.
  rewrite run_pipeline_call. subst cfg. by rewrite Hf.
Qed.

(** X3. A pipeline without a single function, the empty one included,
    calls nothing: the accumulator comes back as it went in, the store is
    untouched, and the trace gains one warning per entry. *)
Theorem pipeline_without_functions (file : abspath) (pipes : list pipe)
    (pos : nat) (acc : value) (w : World) :
  forallb is_value pipes = true ->
  run_pipeline X options log config file pos pipes acc w =
  (Ret acc,
   emit_all (concat (replicate (length pipes) (warning_events options))) w).
Proof.
  revert pos w. induction pipes as [|[f|v] pipes IH]; intros pos w H.
  - simpl. by rewrite emit_all_nil.
  - discriminate.
  - rewrite run_pipeline_skip, IH by exact H.
    simpl. by rewrite emit_all_app.
Qed.

(** X4. Every call made while a file's pipeline runs, however the run
    ends, is a call with the build's configuration and the descriptor of
    that very file. *)
Theorem stages_see_the_same_file (file : abspath) (pipes : list pipe)
    (pos : nat) (acc : value) (w w' : World) (o : outcome value) :
  run_pipeline X options log config file pos pipes acc w = (o, w') ->
  exists evs,
    trace w' = trace w ++ evs /\
    Forall (fun ev =>
              forall p c fd prev,
                ev = StageCall p c fd prev -> c = cfg /\ fd = getFileInfo X file)
           evs.
Proof.
  revert pos acc w. induction pipes as [|[f|v] pipes IH]; intros pos acc w H.
  - simpl in H. inversion H; subst. exists []. by rewrite app_nil_r.
  - rewrite run_pipeline_call in H.
    destruct (f (dirs config) (getFileInfo X file) acc (store w)) as [[r|e] st].
    + apply IH in H as (evs & Htr & Hall). simpl in Htr.
      exists (StageCall pos cfg (getFileInfo X file) acc :: evs). split.
      * by rewrite Htr, <- app_assoc.
      * constructor; [|done]. intros p c fd prev Heq. by inversion Heq.
    + inversion H; subst. exists [StageCall pos cfg (getFileInfo X file) acc]. split.
      * reflexivity.
      * constructor; [|done]. intros p c fd prev Heq. by inversion Heq.
  - rewrite run_pipeline_skip in H.
    apply IH in H as (evs & Htr & Hall). simpl in Htr.
    exists (warning_events options ++ evs). split.
    + by rewrite Htr, <- app_assoc.
    + apply Forall_app. split; [|done].
      unfold warning_events, spinner_events.
      destruct (has_spinner options); repeat constructor; discriminate.
Qed.

End PipelineFacts.

(** ** More on the guards and the setup *)

Lemma only_dirs_added_refl m : only_dirs_added m m.
Proof. split; [apply fs_le_refl | auto]. Qed.

Lemma only_dirs_added_trans m1 m2 m3 :
  only_dirs_added m1 m2 -> only_dirs_added m2 m3 -> only_dirs_added m1 m3.
Proof.
  intros [Hle12 Hnew12] [Hle23 Hnew23]. split.
  - by eapply fs_le_trans.
  - intros q n Hq. destruct (Hnew23 _ _ Hq) as [Hq2|?]; [|by right].
    by apply Hnew12.
Qed.

Lemma only_dirs_added_insert m p :
  fs_lookup m p = None -> only_dirs_added m (<[p := Dir]> m).
Proof.
  intros Hp. split; [by apply fs_le_insert_fresh|].
  intros q n Hq. destruct q as [|s q]; [by left|].
  simpl in *. destruct (decide (p = s :: q)) as [->|Hne].
  - rewrite lookup_insert_eq in Hq. right. congruence.
  - rewrite lookup_insert_ne in Hq by done. by left.
Qed.

Lemma fs_mkdir_rec_only_dirs rest : forall m done m',
  fs_mkdir_rec m done rest = Ret m' -> only_dirs_added m m'.
Proof.
  induction rest as [|seg rest IH]; intros m done m' H; simpl in H.
  - inversion H; subst. apply only_dirs_added_refl.
  - destruct (fs_lookup m (done ++ [seg])) as [[|c]|] eqn:Hq; try discriminate.
    + by eapply IH.
    + eapply only_dirs_added_trans; [|by eapply IH].
      by apply only_dirs_added_insert.
Qed.

Lemma fs_mkdir_only_dirs m p m' :
  fs_mkdir m p = Ret m' -> only_dirs_added m m'.
Proof.
  unfold fs_mkdir. destruct (fs_lookup m p) eqn:Hp; [discriminate|].
  destruct (fs_lookup m (removelast p)) as [[|c]|]; try discriminate.
  intros H. inversion H; subst. by apply only_dirs_added_insert.
Qed.

Lemma mkdir_only_dirs p r w o w' :
  mkdir p r w = (o, w') ->
  only_dirs_added (fs (store w)) (fs (store w')) /\
  custom (store w') = custom (store w).
Proof.
  unfold mkdir. destruct r.
  - destruct (fs_mkdirp (fs (store w)) p) as [m|e] eqn:E; intros H; inversion H; subst.
    + simpl. split; [|done]. by eapply fs_mkdir_rec_only_dirs.
    + simpl. split; [apply only_dirs_added_refl | done].
  - destruct (fs_mkdir (fs (store w)) p) as [m|e] eqn:E; intros H; inversion H; subst.
    + simpl. split; [|done]. by eapply fs_mkdir_only_dirs.
    + simpl. split; [apply only_dirs_added_refl | done].
Qed.

Lemma mkdir_loop_only_dirs (g : string -> abspath) (ks : list string) w o w' :
  for_of ks (fun k => mkdir (g k) true) w = (o, w') ->
  only_dirs_added (fs (store w)) (fs (store w')) /\
  custom (store w') = custom (store w).
Proof.
  revert w. induction ks as [|k ks IH]; intros w H.
  - simpl in H. inversion H; subst. split; [apply only_dirs_added_refl | done].
  - simpl in H. rewrite bind_run in H.
    destruct (mkdir (g k) true w) as [[[]|e] w1] eqn:Hk;
      apply mkdir_only_dirs in Hk as [Hk Hc].
    + apply IH in H as [H Hc']. split; [by eapply only_dirs_added_trans | congruence].
    + by inversion H; subst.
Qed.

Section SetupFacts.

Variable X : Externals.
Variable options : BuildOptions.
Variable config : InertConfig.

Let log := new_Logger options.
Let cfg := dirs config.

(** X5. [build] returns [false] in exactly two situations: the project
    has no configuration file, or a source directory is missing.  Nothing
    that goes wrong later is reported that way. *)
Theorem false_means_a_precondition_failed (w : World) :
  (exists w', build X options config w = (Ret false, w')) <->
  (config_file_exists w = false \/ source_dir_missing X config w).
Proof.
  split.
  - intros [w' H]. destruct (config_file_exists w) eqn:Hcfg; [|by left].
    right. rewrite (build_with_config _ _ _ _ Hcfg) in H.
    apply source_dir_missing_existsb.
    destruct (existsb _ _); [done|].
    apply bind_ret_inv in H as ([] & w0 & _ & H).
    apply bind_ret_inv in H as ([] & w1 & _ & H).
    discriminate.
  - intros H. destruct (config_file_exists w) eqn:Hcfg.
    + destruct H as [?|Hmiss]; [discriminate|].
      apply source_dir_missing_existsb in Hmiss.
      rewrite (build_with_config _ _ _ _ Hcfg), Hmiss. eauto.
    + rewrite (build_without_config _ _ _ _ Hcfg). eauto.
Qed.

(** The setup, step by step. *)
Lemma setup_output_run pd w :
  setup_output X options log config pd w =
  let out := out_dir_path X config pd in
  let w1 := emit_all (spinner_events options SpinnerStop) w in
  let subdirs :=
    for_of (obj_keys (outDirs cfg))
      (fun outdir => mkdir (out_subdir_path X config pd outdir) true);;
    spinner_start options in
  if fs_exists (fs (store w)) out
  then subdirs (emit_all [Log LVerb "Output directory already exists"] w1)
  else
    match mkdir out false
            (emit_all
               [Log LVerb ("Creating output directory: " +:+ out_dir_text X config pd)]
               w1)
    with
    | (Ret _, w2) => subdirs w2
    | (Throw e, w2) => (Throw e, w2)
    end.
Proof.
  unfold setup_output. rewrite bind_run, spinner_stop_run.
  rewrite bind_run. unfold existsSync at 1. simpl store.
  fold (out_dir_path X config pd). cbv zeta.
  destruct (fs_exists (fs (store w)) (out_dir_path X config pd)).
  - rewrite bind_run, log_call_run. reflexivity.
  - rewrite bind_run, bind_run, log_call_run. reflexivity.
Qed.

(** X6. The output root is made with a plain [mkdir]: when it is not
    there and the directory it would sit in is not a directory either,
    [build] throws.  Nothing has been created by then, no folder has been
    looked at, and the last thing done to the spinner was to stop it. *)
Theorem output_root_needs_its_parent (w : World) :
  let out := out_dir_path X config (cwd w) in
  config_file_exists w = true ->
  ~ source_dir_missing X config w ->
  fs_exists (fs (store w)) out = false ->
  fs_is_dir (fs (store w)) (removelast out) = false ->
  exists e,
    (e = ENOENT \/ e = ENOTDIR) /\
    build X options config w =
    (Throw e,
     emit_all
       (spinner_events options SpinnerStop
        ++ [Log LVerb ("Creating output directory: " +:+ out_dir_text X config (cwd w));
            Mkdir out false]) w).
Proof.
  intros out Hcfg Hsrc Hout Hparent.
  rewrite (build_with_config _ _ _ _ Hcfg).
  rewrite source_dir_missing_existsb in Hsrc.
  destruct (existsb _ _); [done|].
  rewrite bind_run, setup_output_run. cbv zeta. fold out. rewrite Hout.
  unfold mkdir, fs_mkdir. simpl store.
  unfold fs_exists in Hout. apply bool_decide_eq_false in Hout.
  destruct (fs_lookup (fs (store w)) out) eqn:Hlook; [by destruct Hout; eauto|].
  unfold fs_is_dir in Hparent.
  destruct (fs_lookup (fs (store w)) (removelast out)) as [[|c]|]; [done| |].
  - exists ENOTDIR. split; [by right|]. by rewrite emit_emit_all, !emit_all_app.
  - exists ENOENT. split; [by left|]. by rewrite emit_emit_all, !emit_all_app.
Qed.

(** X7. However the setup ends, it has removed nothing and changed
    nothing that was on disk, and all it has added are directories; the
    [custom] part of the configuration is as it was. *)
Theorem setup_only_adds_directories (pd : abspath) (w w' : World) (o : outcome unit) :
  setup_output X options log config pd w = (o, w') ->
  only_dirs_added (fs (store w)) (fs (store w')) /\
  custom (store w') = custom (store w).
Proof.
  rewrite setup_output_run. cbv zeta.
  assert (forall w1 o w',
            (for_of (obj_keys (outDirs cfg))
               (fun outdir => mkdir (out_subdir_path X config pd outdir) true);;
             spinner_start options) w1 = (o, w') ->
            only_dirs_added (fs (store w1)) (fs (store w')) /\
            custom (store w') = custom (store w1)) as Hsub.
  { intros w1 o1 w1' H. rewrite bind_run in H.
    destruct (for_of _ _ w1) as [[[]|e] w2] eqn:Hloop;
      apply mkdir_loop_only_dirs in Hloop.
    - rewrite spinner_start_run in H. by inversion H; subst.
    - by inversion H; subst. }
  destruct (fs_exists _ _).
  - intros H. by apply Hsub in H.
  - destruct (mkdir _ false _) as [[[]|e] w2] eqn:Hmk;
      apply mkdir_only_dirs in Hmk as [Hmk Hc]; simpl in Hmk, Hc; intros H.
    + apply Hsub in H as [H Hc']. split; [by eapply only_dirs_added_trans | congruence].
    + by inversion H; subst.
Qed.

Lemma mkdir_loop_trace (g : string -> abspath) (ks : list string) w w' :
  for_of ks (fun k => mkdir (g k) true) w = (Ret tt, w') ->
  trace w' = trace w ++ map (fun k => Mkdir (g k) true) ks.
Proof.
  revert w. induction ks as [|k ks IH]; intros w H.
  - simpl in H. inversion H; subst. by rewrite app_nil_r.
  - simpl in H. apply bind_ret_inv in H as ([] & w1 & Hk & Hrest).
    apply mkdir_ok in Hk as (_ & _ & Htr1). apply IH in Hrest.
    by rewrite Hrest, Htr1, <- app_assoc.
Qed.

(** X8. When the setup succeeds its calls are, in this order: a stop of
    the spinner, one line of log (naming the output root as [path.join]
    wrote it), a plain [mkdir] of the output root if and only if the root
    was not there, one recursive [mkdir] per key of [outDirs] in the
    order in which [for ... in] hands out the keys (array indices first,
    ascending, then the others as they were added), and a start of the
    spinner. *)
Theorem setup_creates_in_declaration_order (pd : abspath) (w w' : World) :
  setup_output X options log config pd w = (Ret tt, w') ->
  let out := out_dir_path X config pd in
  trace w' =
  trace w
  ++ spinner_events options SpinnerStop
  ++ (if fs_exists (fs (store w)) out
      then [Log LVerb "Output directory already exists"]
      else [Log LVerb ("Creating output directory: " +:+ out_dir_text X config pd);
            Mkdir out false])
  ++ map (fun outdir => Mkdir (out_subdir_path X config pd outdir) true)
       (obj_keys (outDirs cfg))
  ++ spinner_events options SpinnerStart.
Proof.
  rewrite setup_output_run. cbv zeta.
  destruct (fs_exists _ _).
  - intros H. apply bind_ret_inv in H as ([] & w1 & Hloop & Hstart).
    rewrite spinner_start_run in Hstart. inversion Hstart; subst.
    apply mkdir_loop_trace in Hloop. simpl in *. rewrite Hloop.
    by rewrite <- !app_assoc.
  - destruct (mkdir _ false _) as [[[]|e] w2] eqn:Hmk; [|discriminate].
    apply mkdir_ok in Hmk as (_ & _ & Htr). simpl in Htr.
    intros H. apply bind_ret_inv in H as ([] & w1 & Hloop & Hstart).
    rewrite spinner_start_run in Hstart. inversion Hstart; subst.
    apply mkdir_loop_trace in Hloop. simpl in *. rewrite Hloop, Htr.
    by rewrite <- !app_assoc.
Qed.

(** *** Running the setup again *)

Lemma fs_mkdir_rec_settled rest : forall m pre m',
  fs_mkdir_rec m pre rest = Ret m' -> fs_mkdir_rec m' pre rest = Ret m'.
Proof.
  induction rest as [|seg rest IH]; intros m pre m' H; [done|].
  simpl in H. destruct (fs_lookup m (pre ++ [seg])) as [[|c]|] eqn:Hq; try discriminate.
  - pose proof (fs_mkdir_rec_ok _ _ _ _ H) as [Hle _].
    simpl. rewrite (Hle _ _ Hq). by eapply IH.
  - pose proof (fs_mkdir_rec_ok _ _ _ _ H) as [Hle _].
    simpl. rewrite (Hle (pre ++ [seg]) Dir).
    + by eapply IH.
    + apply fs_lookup_insert. by destruct pre.
Qed.

Lemma fs_mkdir_rec_settled_le rest : forall m pre m',
  fs_mkdir_rec m pre rest = Ret m -> fs_le m m' ->
  fs_mkdir_rec m' pre rest = Ret m'.
Proof.
  induction rest as [|seg rest IH]; intros m pre m' H Hle; [done|].
  simpl in H. destruct (fs_lookup m (pre ++ [seg])) as [[|c]|] eqn:Hq; try discriminate.
  - simpl. rewrite (Hle _ _ Hq). by eapply IH.
  - pose proof (fs_mkdir_rec_ok _ _ _ _ H) as [Hle' _].
    rewrite (Hle' (pre ++ [seg]) Dir) in Hq; [discriminate|].
    apply fs_lookup_insert. by destruct pre.
Qed.

Lemma mkdir_loop_settles (g : string -> abspath) (ks : list string) w w' :
  for_of ks (fun k => mkdir (g k) true) w = (Ret tt, w') ->
  forall k, k ∈ ks -> fs_mkdirp (fs (store w')) (g k) = Ret (fs (store w')).
Proof.
  revert w. induction ks as [|k ks IH]; intros w H k' Hk'.
  - by apply elem_of_nil in Hk'.
  - simpl in H. apply bind_ret_inv in H as ([] & w1 & Hk & Hrest).
    apply elem_of_cons in Hk' as [->|Hk']; [|by eapply IH].
    apply mkdir_loop_ok in Hrest as (Hle & _).
    unfold mkdir in Hk.
    destruct (fs_mkdirp (fs (store w)) (g k)) as [m|e] eqn:E; [|discriminate].
    inversion Hk; subst w1. simpl in Hle.
    apply fs_mkdir_rec_settled in E. by eapply fs_mkdir_rec_settled_le.
Qed.

Lemma mkdir_loop_settled (g : string -> abspath) (ks : list string) w :
  (forall k, k ∈ ks -> fs_mkdirp (fs (store w)) (g k) = Ret (fs (store w))) ->
  exists w',
    for_of ks (fun k => mkdir (g k) true) w = (Ret tt, w') /\
    fs (store w') = fs (store w) /\ custom (store w') = custom (store w).
Proof.
  revert w. induction ks as [|k ks IH]; intros w H.
  - exists w. done.
  - simpl. rewrite bind_run. unfold mkdir at 1.
    rewrite (H k) by apply list_elem_of_here.
    destruct (IH (with_fs (fs (store w)) (emit (Mkdir (g k) true) w)))
      as (w' & Hrun & Hfs & Hc).
    { intros k' Hk'. simpl. apply H. by apply list_elem_of_further. }
    exists w'. by rewrite Hrun.
Qed.

(** X9. The setup can be run again: after a setup that succeeded, a
    second one succeeds as well and leaves the file system and the
    configuration exactly as the first one left them. *)
Theorem setup_is_idempotent (pd : abspath) (w w1 : World) :
  setup_output X options log config pd w = (Ret tt, w1) ->
  exists w2,
    setup_output X options log config pd w1 = (Ret tt, w2) /\
    fs (store w2) = fs (store w1) /\
    custom (store w2) = custom (store w1).
Proof.
  intros H.
  destruct (setup_output_ok _ _ _ _ _ _ H) as ([Hroot _] & _ & _).
  assert (forall k, k ∈ obj_keys (outDirs cfg) ->
            fs_mkdirp (fs (store w1)) (out_subdir_path X config pd k)
            = Ret (fs (store w1))) as Hsettled.
  { rewrite setup_output_run in H. cbv zeta in H.
    destruct (fs_exists (fs (store w)) _).
    - apply bind_ret_inv in H as ([] & wb & Hloop & Hstart).
      rewrite spinner_start_run in Hstart. inversion Hstart; subst.
      intros k Hk. simpl. by eapply mkdir_loop_settles.
    - destruct (mkdir _ false _) as [[[]|e] wa]; [|discriminate].
      apply bind_ret_inv in H as ([] & wb & Hloop & Hstart).
      rewrite spinner_start_run in Hstart. inversion Hstart; subst.
      intros k Hk. simpl. by eapply mkdir_loop_settles. }
  rewrite setup_output_run. cbv zeta.
  fold (out_dir_path X config pd) in Hroot. rewrite Hroot.
  destruct (mkdir_loop_settled (out_subdir_path X config pd) (obj_keys (outDirs cfg))
              (emit_all [Log LVerb "Output directory already exists"]
                 (emit_all (spinner_events options SpinnerStop) w1)) Hsettled)
    as (wb & Hloop & Hfs & Hc).
  eexists. rewrite bind_run, Hloop, spinner_start_run. done.
Qed.

(** *** Discovery that fails *)

(** X10. A discovery that is rejected is not caught: the folder throws
    that error right after the call, no stage having run for it, and the
    folders after it are not looked at. *)
Theorem traverse_failure_ends_the_folder (pd : abspath) (fld : BuildFolder)
    (rest : list BuildFolder) (w : World) (e : error) :
  let p := source_dir_path X config pd (folder fld) in
  let flag := recursive_flag (folder_build fld) in
  traverse X (fs (store w)) p false flag = Throw e ->
  for_of (fld :: rest) (build_folder X options log config pd) w =
  (Throw e,
   emit_all
     (folder_header_events X options (source_dir_text X config pd (folder fld))
      ++ [Traverse p false flag]) w).
Proof.
  intros p flag H. simpl. apply bind_throw.
  rewrite build_folder_run. cbv zeta. fold p flag. by rewrite H.
Qed.

End SetupFacts.

(** ** The spinner around the log lines *)

Lemma spinner_after_app s s' evs1 evs2 :
  spinner_after s evs1 = Some s' ->
  spinner_after s (evs1 ++ evs2) = spinner_after s' evs2.
Proof.
  revert s. induction evs1 as [|ev evs1 IH]; intros s H.
  - simpl in H. by inversion H.
  - destruct ev; simpl in *; destruct s; try discriminate; by apply IH.
Qed.

Lemma for_of_spinner {A} (body : A -> M unit) (s : bool) (l : list A) :
  (forall x w o w',
     body x w = (o, w') ->
     exists evs, trace w' = trace w ++ evs /\ spinner_after s evs = Some s) ->
  forall w o w',
    for_of l body w = (o, w') ->
    exists evs, trace w' = trace w ++ evs /\ spinner_after s evs = Some s.
Proof.
  intros Hbody. induction l as [|x l IH]; intros w o w' H.
  - simpl in H. inversion H; subst. exists []. by rewrite app_nil_r.
  - simpl in H. rewrite bind_run in H.
    destruct (body x w) as [[[]|e] w1] eqn:Hx;
      apply Hbody in Hx as (evs1 & Htr1 & Hs1).
    + apply IH in H as (evs2 & Htr2 & Hs2).
      exists (evs1 ++ evs2). split.
      * by rewrite Htr2, Htr1, <- app_assoc.
      * by rewrite (spinner_after_app _ _ _ _ Hs1).
    + inversion H; subst. eauto.
Qed.

Section SpinnerFacts.

Variable X : Externals.
Variable options : BuildOptions.
Variable config : InertConfig.
Hypothesis with_spinner : has_spinner options = true.

Let log := new_Logger options.

Lemma run_pipeline_spinner file pipes pos acc w o w' :
  run_pipeline X options log config file pos pipes acc w = (o, w') ->
  exists evs, trace w' = trace w ++ evs /\ spinner_after true evs = Some true.
Proof.
  revert pos acc w. induction pipes as [|[f|v] pipes IH]; intros pos acc w H.
  - simpl in H. inversion H; subst. exists []. by rewrite app_nil_r.
  - rewrite run_pipeline_call in H.
    destruct (f (dirs config) (getFileInfo X file) acc (store w)) as [[r|e] st].
    + apply IH in H as (evs & Htr & Hs). simpl in Htr.
      eexists (_ :: evs). split; [by rewrite Htr, <- app_assoc|]. exact Hs.
    + inversion H; subst. by eexists [_].
  - rewrite run_pipeline_skip in H.
    apply IH in H as (evs & Htr & Hs). simpl in Htr.
    exists (warning_events options ++ evs). split; [by rewrite Htr, <- app_assoc|].
    unfold warning_events, spinner_events. rewrite with_spinner. exact Hs.
Qed.

Lemma build_folder_spinner pd fld w o w' :
  build_folder X options log config pd fld w = (o, w') ->
  exists evs, trace w' = trace w ++ evs /\ spinner_after true evs = Some true.
Proof.
  rewrite build_folder_run. cbv zeta.
  set (hd := folder_header_events X options _ ++ [_]).
  assert (spinner_after true hd = Some true) as Hhd.
  { subst hd. unfold folder_header_events, spinner_events. by rewrite with_spinner. }
  destruct (traverse X _ _ _ _) as [files|e].
  - intros H.
    apply (for_of_spinner _ true) in H as (evs & Htr & Hs).
    + simpl in Htr. exists (hd ++ evs). split; [by rewrite Htr, <- app_assoc|].
      by rewrite (spinner_after_app _ _ _ _ Hhd).
    + intros file w0 o0 w0' Hfile. rewrite file_body_run in Hfile.
      destruct (build_file X options _ config _ file w0) as [[v|e] w1] eqn:Hrun;
        apply run_pipeline_spinner in Hrun; by inversion Hfile; subst.
  - intros H. inversion H; subst. exists hd. by split.
Qed.

Lemma setup_output_spinner pd w o w' :
  setup_output X options log config pd w = (o, w') ->
  exists evs,
    trace w' = trace w ++ evs /\
    spinner_after true evs = Some (match o with Ret _ => true | Throw _ => false end).
Proof.
  rewrite setup_output_run. cbv zeta. unfold spinner_events. rewrite with_spinner.
  assert (forall w1 o w',
            (for_of (obj_keys (outDirs (dirs config)))
               (fun outdir => mkdir (out_subdir_path X config pd outdir) true);;
             spinner_start options) w1 = (o, w') ->
            exists evs,
              trace w' = trace w1 ++ evs /\
              spinner_after false evs
              = Some (match o with Ret _ => true | Throw _ => false end)) as Hsub.
  { intros w1 o1 w1' H. rewrite bind_run in H.
    destruct (for_of _ _ w1) as [[[]|e] w2] eqn:Hloop;
      apply (for_of_spinner _ false) in Hloop as (evs & Htr & Hs).
    - rewrite spinner_start_run in H. inversion H; subst. simpl.
      unfold spinner_events. rewrite with_spinner.
      exists (evs ++ [SpinnerStart]). split; [by rewrite Htr, <- app_assoc|].
      by rewrite (spinner_after_app _ _ _ _ Hs).
    - intros k w0 o0 w0' Hk. unfold mkdir in Hk.
      destruct (fs_mkdirp _ _); inversion Hk; subst; by eexists [_].
    - inversion H; subst. eauto.
    - intros k w0 o0 w0' Hk. unfold mkdir in Hk.
      destruct (fs_mkdirp _ _); inversion Hk; subst; by eexists [_]. }
  destruct (fs_exists _ _).
  - intros H. apply Hsub in H as (evs & Htr & Hs). simpl in Htr.
    eexists ([SpinnerStop; _] ++ evs). split; [by rewrite Htr, <- !app_assoc|].
    exact Hs.
  - unfold mkdir at 1. simpl store.
    destruct (fs_mkdir _ _) as [m|e]; intros H.
    + apply Hsub in H as (evs & Htr & Hs). simpl in Htr.
      eexists ([SpinnerStop; _; _] ++ evs). split; [by rewrite Htr, <- !app_assoc|].
      exact Hs.
    + inversion H; subst. simpl. eexists [SpinnerStop; _; _].
      split; [by rewrite <- !app_assoc|]. reflexivity.
Qed.

(** X11. A build that was given a spinner handles it in strict turns: it
    never stops a stopped spinner or starts a running one, and every line
    it logs is logged while the spinner is stopped.  Whenever [build]
    returns, the spinner is running again; it can only be left stopped by
    an exception. *)
Theorem spinner_is_paused_around_logs (w w' : World) (o : outcome bool) :
  build X options config w = (o, w') ->
  exists evs s,
    trace w' = trace w ++ evs /\
    spinner_after true evs = Some s /\
    (forall b, o = Ret b -> s = true).
Proof.
  destruct (config_file_exists w) eqn:Hcfg.
  - rewrite (build_with_config _ _ _ _ Hcfg).
    destruct (existsb _ _).
    + intros H. inversion H; subst.
      exists (missing_dirs_events options), true. split; [done|]. split; [|done].
      unfold missing_dirs_events, spinner_events. by rewrite with_spinner.
    + rewrite bind_run.
      destruct (setup_output X options _ config (cwd w) w) as [[[]|e] w0] eqn:Hsetup;
        apply setup_output_spinner in Hsetup as (evs0 & Htr0 & Hs0).
      * rewrite bind_run.
        destruct (for_of (folders config) _ w0) as [[[]|e] w1] eqn:Hloop;
          apply (for_of_spinner _ true) in Hloop as (evs1 & Htr1 & Hs1);
          try (intros fld wa oa wa'; apply build_folder_spinner).
        -- intros H. inversion H; subst.
           exists (evs0 ++ evs1), true. split; [by rewrite Htr1, Htr0, <- app_assoc|].
           split; [|done]. by rewrite (spinner_after_app _ _ _ _ Hs0).
        -- intros H. inversion H; subst.
           exists (evs0 ++ evs1), true. split; [by rewrite Htr1, Htr0, <- app_assoc|].
           split; [|done]. by rewrite (spinner_after_app _ _ _ _ Hs0).
      * intros H. inversion H; subst. exists evs0, false. split; [done|].
        split; [done|]. discriminate.
  - rewrite (build_without_config _ _ _ _ Hcfg). intros H. inversion H; subst.
    exists (invalid_project_events X options (cwd w)), true. split; [done|].
    split; [|done].
    unfold invalid_project_events, spinner_events. by rewrite with_spinner.
Qed.

End SpinnerFacts.

(** ** More on the markdown stage *)

Lemma obj_get_set_same {A} (o : list (string * A)) k v :
  obj_get (obj_set o k v) k = Some v.
Proof.
  induction o as [|[k' v'] o IH]; simpl.
  - by rewrite String.eqb_refl.
  - destruct (String.eqb k' k) eqn:E; simpl; by rewrite E.
Qed.

Lemma obj_get_set_other {A} (o : list (string * A)) k k' v :
  k <> k' -> obj_get (obj_set o k v) k' = obj_get o k'.
Proof.
  intros Hne. induction o as [|[k0 v0] o IH]; simpl.
  - apply String.eqb_neq in Hne. by rewrite Hne.
  - destruct (String.eqb k0 k) eqn:E; simpl.
    + apply String.eqb_eq in E as ->.
      apply String.eqb_neq in Hne. by rewrite Hne.
    + by rewrite IH.
Qed.

Lemma obj_keys_set_present {A} (o : list (string * A)) k v :
  k ∈ obj_keys o -> obj_keys (obj_set o k v) = obj_keys o.
Proof.
  unfold obj_keys. rewrite elem_of_own_keys. intros Hin. f_equal. revert Hin.
  induction o as [|[k0 v0] o IH]; simpl; intros Hin.
  - by apply elem_of_nil in Hin.
  - destruct (String.eqb k0 k) eqn:E; [done|]. simpl. f_equal. apply IH.
    apply elem_of_cons in Hin as [->|Hin]; [|done].
    by rewrite String.eqb_refl in E.
Qed.

Section MarkdownMore.

Variable L : MarkdownLibs.

(** Every run of the stage, read backwards. *)
Lemma markdown_inv opts config file previous st o st' :
  markdown L opts config file previous st = (o, st') ->
  let compiler := spread_options (default_options L) (default no_options opts) in
  let st1 := set_spinner_text (progress_label L file) st in
  match o with
  | Ret v =>
      exists text content html,
        fs_read (fs st) (path file) = Ret text /\
        fm L text = Ret content /\
        render L compiler (fm_body content) = Ret html /\
        v = VObj (obj_set (fm_object content) "body" (VStr html)) /\
        st' = set_spinner_text (spinner_text_of st) st1
  | Throw e =>
      st' = st1 /\
      (fs_read (fs st) (path file) = Throw e \/
       exists text,
         fs_read (fs st) (path file) = Ret text /\
         (fm L text = Throw e \/
          exists content,
            fm L text = Ret content /\
            render L compiler (fm_body content) = Throw e))
  end.
Proof.
  unfold markdown, progress_label. rewrite fs_set_spinner_text. cbv zeta.
  destruct (fs_read (fs st) (path file)) as [text|e1].
  - destruct (fm L text) as [content|e2] eqn:Hfm.
    + destruct (render L _ (fm_body content)) as [html|e3] eqn:Hrender;
        intros H; inversion H; subst; clear H.
      * by exists text, content, html.
      * split; [done|]. right. exists text. split; [done|]. right. by exists content.
    + intros H; inversion H; subst; clear H.
      split; [done|]. right. exists text. split; [done|]. by left.
  - intros H; inversion H; subst; clear H. split; [done|]. by left.
Qed.

Lemma markdown_store opts config file previous st o st' :
  markdown L opts config file previous st = (o, st') ->
  st' = set_spinner_text (progress_label L file) st \/
  st' = set_spinner_text (spinner_text_of st)
          (set_spinner_text (progress_label L file) st).
Proof.
  intros H. apply markdown_inv in H. cbv zeta in H. destruct o.
  - destruct H as (? & ? & ? & _ & _ & _ & _ & ->). by right.
  - destruct H as [-> _]. by left.
Qed.

(** X12. The stage never writes to the file system, however it ends; and
    when the configuration carries no spinner it leaves the whole store
    as it found it. *)
Theorem markdown_leaves_files_alone
    (opts : option MarkdownItOptions) (config : ConfigData) (file : InertFile)
    (previous : value) (st st' : Store) (o : outcome value) :
  markdown L opts config file previous st = (o, st') ->
  fs st' = fs st /\ (config_spinner st = None -> st' = st).
Proof.
  intros H. apply markdown_store in H as [->| ->].
  - split; [by rewrite fs_set_spinner_text|].
    intros Hno. by rewrite set_spinner_text_none.
  - split; [by rewrite !fs_set_spinner_text|].
    intros Hno. rewrite (set_spinner_text_none _ st Hno).
    by rewrite (set_spinner_text_none _ st Hno).
Qed.

(** X13. When the stage throws and the configuration has a spinner, the
    spinner is left showing the progress label of the file: the saved
    text is only written back on the way to a normal return. *)
Theorem markdown_failure_leaves_the_label
    (opts : option MarkdownItOptions) (config : ConfigData) (file : InertFile)
    (previous : value) (st st' : Store) (e : error) (sp : gmap string value) :
  config_spinner st = Some sp ->
  markdown L opts config file previous st = (Throw e, st') ->
  spinner_text_of st' = VStr ("Building markdown: " +:+ chalk_cyan L (basename file)).
Proof.
  intros Hsp H. apply markdown_inv in H as [-> _].
  by eapply spinner_text_of_set.
Qed.

(** X14. A spinner that had a [text] of its own gets exactly that back:
    after a normal return the store is equal to the store before the
    call. *)
Theorem markdown_restores_the_store
    (opts : option MarkdownItOptions) (config : ConfigData) (file : InertFile)
    (previous : value) (st st' : Store) (v : value) (sp : gmap string value) :
  config_spinner st = Some sp ->
  is_Some (sp !! "text") ->
  markdown L opts config file previous st = (Ret v, st') ->
  st' = st.
Proof.
  intros Hsp [old Hold] H. apply markdown_ret_inv in H as ->.
  unfold spinner_text_of. rewrite Hsp, Hold. simpl.
  unfold set_spinner_text at 1.
  rewrite (config_spinner_set _ _ _ Hsp), fs_set_spinner_text.
  rewrite insert_insert_eq, (insert_id _ _ _ Hold).
  destruct st as [m [[[sp0|]]|] q]; simpl in *; try discriminate.
  by inversion Hsp; subst.
Qed.

(** X15. A spinner without a [text] property does not come back as it
    was: after a normal return it has the property, holding [undefined]. *)
Theorem markdown_defines_a_missing_text
    (opts : option MarkdownItOptions) (config : ConfigData) (file : InertFile)
    (previous : value) (st st' : Store) (v : value) (sp : gmap string value) :
  config_spinner st = Some sp ->
  sp !! "text" = None ->
  markdown L opts config file previous st = (Ret v, st') ->
  config_spinner st' = Some (<["text" := VUndefined]> sp).
Proof.
  intros Hsp Hno H. apply markdown_ret_inv in H as ->.
  unfold spinner_text_of. rewrite Hsp, Hno. simpl.
  erewrite config_spinner_set by (by apply config_spinner_set).
  by rewrite insert_insert_eq.
Qed.

(** X16. What the stage returns is what front-matter made of the file,
    with the body replaced by its rendering and nothing else touched: the
    file is read at [file.path], only the body (not the front matter)
    goes to the renderer, and the result is front-matter's object with
    [body] set to the rendered text.  So every other property holds what
    front-matter put there, and no property is added or reordered. *)
Theorem markdown_result_is_rendered_front_matter
    (opts : option MarkdownItOptions) (config : ConfigData) (file : InertFile)
    (previous : value) (st st' : Store) (v : value) :
  markdown L opts config file previous st = (Ret v, st') ->
  exists text content html,
    fs_read (fs st) (path file) = Ret text /\
    fm L text = Ret content /\
    render L (spread_options (default_options L) (default no_options opts))
      (fm_body content) = Ret html /\
    v = VObj (obj_set (fm_object content) "body" (VStr html)) /\
    obj_get (obj_set (fm_object content) "body" (VStr html)) "body"
    = Some (VStr html) /\
    (forall k, k <> "body" ->
       obj_get (obj_set (fm_object content) "body" (VStr html)) k
       = obj_get (fm_object content) k) /\
    obj_keys (obj_set (fm_object content) "body" (VStr html))
    = obj_keys (fm_object content).
Proof.
  intros H. apply markdown_inv in H. cbv zeta in H.
  destruct H as (text & content & html & Hread & Hfm & Hrender & -> & _).
  exists text, content, html.
  do 4 (split; [done|]). split; [apply obj_get_set_same|]. split.
  - intros k Hk. by apply obj_get_set_other.
  - apply obj_keys_set_present, elem_of_own_keys. unfold fm_object. simpl.
    apply list_elem_of_further, list_elem_of_here.
Qed.

(** X17. A file that cannot be read makes the stage throw the error of
    the read, [ENOENT] for a missing file and [EISDIR] for a directory,
    before front-matter or the renderer are asked anything. *)
Theorem markdown_unreadable_file
    (opts : option MarkdownItOptions) (config : ConfigData) (file : InertFile)
    (previous : value) (st : Store) :
  (fs_lookup (fs st) (path file) = None ->
   markdown L opts config file previous st
   = (Throw ENOENT, set_spinner_text (progress_label L file) st)) /\
  (fs_lookup (fs st) (path file) = Some Dir ->
   markdown L opts config file previous st
   = (Throw EISDIR, set_spinner_text (progress_label L file) st)).
Proof.
  unfold markdown, fs_read, progress_label. rewrite fs_set_spinner_text.
  split; intros H; by rewrite H.
Qed.

(** A markdown stage keeps the entries of the file system. *)
Lemma markdown_keeps_entries opts : stage_keeps_entries (markdown L opts).
Proof.
  intros c fd prev st o st' H. apply markdown_store in H as [->| ->];
    rewrite ?fs_set_spinner_text; apply fs_le_refl.
Qed.

Lemma markdown_only_keeps_entries config :
  markdown_only L config -> stages_keep_entries config.
Proof.
  unfold markdown_only, stages_keep_entries. intros H.
  eapply Forall_impl; [exact H|]. intros fld Hfld. simpl in Hfld.
  eapply Forall_impl; [exact Hfld|]. intros [f|v]; simpl; [|done].
  intros [opts ->]. apply markdown_keeps_entries.
Qed.

(** X18. When every function in every pipeline is a markdown stage, a
    build that returns [true] returns with the output root in place and
    every entry of [outDirs] a directory. *)
Theorem markdown_build_leaves_output_dirs
    (X : Externals) (options : BuildOptions) (config : InertConfig) (w w' : World) :
  markdown_only L config ->
  build X options config w = (Ret true, w') ->
  output_dirs_exist X config (cwd w) (fs (store w')).
Proof.
  intros Hmd H. apply build_true_inv in H as (_ & _ & w0 & Hsetup & Hloop).
  apply setup_output_ok in Hsetup as ([Hroot Hdirs] & _ & _).
  apply (folder_loop_keeps _ _ _ _ _ _ _ _ (markdown_only_keeps_entries _ Hmd)) in Hloop.
  split.
  - by apply (fs_le_exists _ _ _ Hloop).
  - intros name rel Hget. apply (fs_le_is_dir _ _ _ Hloop). by eapply Hdirs.
Qed.

End MarkdownMore.

(** ** These facts at work on the fixture project *)

Lemma pipeline_stops_at_failing_stage_witness :
  build_file Fixture.externals Fixture.options (new_Logger Fixture.options)
    (Fixture.config None)
    ([PFun Fixture.count_stage] ++ PFun Fixture.failing_stage :: [PFun Fixture.count_stage])
    Fixture.a_md Fixture.world
  = (Throw (UserError "boom"),
     with_store (store Fixture.world)
       (emit_all
          [StageCall 1 (dirs (Fixture.config None))
             (getFileInfo Fixture.externals Fixture.a_md) (VNum 1)]
          (with_store (store Fixture.world)
             (emit_all
                [StageCall 0 (dirs (Fixture.config None))
                   (getFileInfo Fixture.externals Fixture.a_md) VUndefined]
                Fixture.world)))).
Proof.
  exact (pipeline_stops_at_failing_stage Fixture.externals Fixture.options
           (Fixture.config None) Fixture.a_md [PFun Fixture.count_stage]
           [PFun Fixture.count_stage] Fixture.failing_stage (VNum 1) Fixture.world _
           (UserError "boom") (store Fixture.world) eq_refl eq_refl).
Defined.

Lemma pipeline_without_functions_witness :
  run_pipeline Fixture.externals Fixture.options (new_Logger Fixture.options)
    (Fixture.config None) Fixture.a_md 0 [PVal VNull; PVal (VStr "md")] VUndefined
    Fixture.world
  = (Ret VUndefined,
     emit_all (concat (replicate 2 (warning_events Fixture.options))) Fixture.world).
Proof.
  exact (pipeline_without_functions Fixture.externals Fixture.options
           (Fixture.config None) Fixture.a_md [PVal VNull; PVal (VStr "md")] 0
           VUndefined Fixture.world eq_refl).
Defined.

Lemma stages_see_the_same_file_witness :
  exists evs,
    trace (run_pipeline Fixture.externals Fixture.options (new_Logger Fixture.options)
             (Fixture.config None) Fixture.a_md 0
             [PFun Fixture.count_stage; PFun Fixture.failing_stage] VUndefined
             Fixture.world).2
    = trace Fixture.world ++ evs /\
    Forall (fun ev =>
              forall p c fd prev,
                ev = StageCall p c fd prev ->
                c = dirs (Fixture.config None) /\
                fd = getFileInfo Fixture.externals Fixture.a_md)
           evs.
Proof.
  apply (stages_see_the_same_file Fixture.externals Fixture.options
           (Fixture.config None) Fixture.a_md
           [PFun Fixture.count_stage; PFun Fixture.failing_stage] 0 VUndefined
           Fixture.world _ (Throw (UserError "boom"))).
  apply run_eq. reflexivity.
Defined.

Lemma posts_exist_on_disk :
  ~ source_dir_missing Fixture.externals_nested (Fixture.config None) Fixture.world.
Proof.
  intros H. apply source_dir_missing_existsb in H.
  vm_compute in H. discriminate.
Qed.

Lemma output_root_needs_its_parent_witness :
  exists e,
    (e = ENOENT \/ e = ENOTDIR) /\
    build Fixture.externals_nested Fixture.options (Fixture.config None) Fixture.world =
    (Throw e,
     emit_all
       (spinner_events Fixture.options SpinnerStop
        ++ [Log LVerb
              ("Creating output directory: "
               +:+ out_dir_text Fixture.externals_nested (Fixture.config None)
                     (cwd Fixture.world));
            Mkdir
              (out_dir_path Fixture.externals_nested (Fixture.config None)
                 (cwd Fixture.world)) false])
       Fixture.world).
Proof.
  apply (output_root_needs_its_parent Fixture.externals_nested Fixture.options
           (Fixture.config None) Fixture.world).
  - vm_compute. reflexivity.
  - exact posts_exist_on_disk.
  - vm_compute. reflexivity.
  - vm_compute. reflexivity.
Defined.

Lemma setup_only_adds_directories_witness :
  only_dirs_added (fs (store Fixture.world))
    (fs (store (setup_output Fixture.externals Fixture.options
                  (new_Logger Fixture.options) (Fixture.config None) ["proj"]
                  Fixture.world).2)) /\
  custom (store (setup_output Fixture.externals Fixture.options
                   (new_Logger Fixture.options) (Fixture.config None) ["proj"]
                   Fixture.world).2)
  = custom (store Fixture.world).
Proof.
  apply (setup_only_adds_directories Fixture.externals Fixture.options
           (Fixture.config None) ["proj"] Fixture.world _ (Ret tt)).
  apply run_eq. vm_compute. reflexivity.
Defined.

Lemma setup_creates_in_declaration_order_witness :
  obj_keys (outDirs (dirs Fixture.config_numbered)) = ["2"; "10"; "html"] /\
  trace (setup_output Fixture.externals_slash Fixture.options
           (new_Logger Fixture.options) Fixture.config_numbered ["proj"]
           Fixture.world).2
  = [Log LVerb "Creating output directory: /proj/dist/";
     Mkdir ["proj"; "dist"] false;
     Mkdir ["proj"; "dist"; "two"] true;
     Mkdir ["proj"; "dist"; "ten"] true;
     Mkdir ["proj"; "dist"; "html"] true].
Proof.
  split; [vm_compute; reflexivity|].
  refine (eq_trans
            (setup_creates_in_declaration_order Fixture.externals_slash Fixture.options
               Fixture.config_numbered ["proj"] Fixture.world _ _) _).
  - apply run_eq. vm_compute. reflexivity.
  - vm_compute. reflexivity.
Defined.

Lemma setup_is_idempotent_witness :
  exists w2,
    setup_output Fixture.externals Fixture.options (new_Logger Fixture.options)
      (Fixture.config None) ["proj"]
      (setup_output Fixture.externals Fixture.options (new_Logger Fixture.options)
         (Fixture.config None) ["proj"] Fixture.world).2
    = (Ret tt, w2) /\
    fs (store w2)
    = fs (store (setup_output Fixture.externals Fixture.options
                   (new_Logger Fixture.options) (Fixture.config None) ["proj"]
                   Fixture.world).2) /\
    custom (store w2)
    = custom (store (setup_output Fixture.externals Fixture.options
                       (new_Logger Fixture.options) (Fixture.config None) ["proj"]
                       Fixture.world).2).
Proof.
  apply (setup_is_idempotent Fixture.externals Fixture.options
           (Fixture.config None) ["proj"] Fixture.world).
  apply run_eq. vm_compute. reflexivity.
Defined.

Lemma traverse_failure_ends_the_folder_witness :
  for_of (Fixture.ghost_folder :: folders (Fixture.config None))
    (build_folder Fixture.externals Fixture.options (new_Logger Fixture.options)
       (Fixture.config None) ["proj"]) Fixture.world
  = (Throw ENOENT,
     emit_all
       (folder_header_events Fixture.externals Fixture.options
          (source_dir_text Fixture.externals (Fixture.config None) ["proj"]
             (folder Fixture.ghost_folder))
        ++ [Traverse
              (source_dir_path Fixture.externals (Fixture.config None) ["proj"]
                 (folder Fixture.ghost_folder))
              false (recursive_flag (folder_build Fixture.ghost_folder))])
       Fixture.world).
Proof.
  apply (traverse_failure_ends_the_folder Fixture.externals Fixture.options
           (Fixture.config None) ["proj"] Fixture.ghost_folder).
  vm_compute. reflexivity.
Defined.

Lemma spinner_is_paused_around_logs_witness :
  exists evs s,
    trace (build Fixture.externals Fixture.options_with_spinner (Fixture.config None)
             Fixture.world).2
    = trace Fixture.world ++ evs /\
    spinner_after true evs = Some s /\
    (forall b, Ret true = Ret b -> s = true).
Proof.
  apply (spinner_is_paused_around_logs Fixture.externals Fixture.options_with_spinner
           (Fixture.config None) eq_refl Fixture.world).
  apply run_eq. vm_compute. reflexivity.
Defined.

Lemma markdown_leaves_files_alone_witness :
  fs (markdown Fixture.libs None (dirs (Fixture.config None))
        (getFileInfo Fixture.externals Fixture.zzz_md) VUndefined
        Fixture.store_with_spinner).2
  = fs Fixture.store_with_spinner /\
  (config_spinner Fixture.store_with_spinner = None ->
   (markdown Fixture.libs None (dirs (Fixture.config None))
      (getFileInfo Fixture.externals Fixture.zzz_md) VUndefined
      Fixture.store_with_spinner).2
   = Fixture.store_with_spinner).
Proof.
  apply (markdown_leaves_files_alone Fixture.libs None (dirs (Fixture.config None))
           (getFileInfo Fixture.externals Fixture.zzz_md) VUndefined
           Fixture.store_with_spinner _ (Throw ENOENT)).
  apply run_eq. vm_compute. reflexivity.
Defined.

Lemma markdown_failure_leaves_the_label_witness :
  spinner_text_of
    (markdown Fixture.libs None (dirs (Fixture.config None))
       (getFileInfo Fixture.externals Fixture.zzz_md) VUndefined
       Fixture.store_with_spinner).2
  = VStr ("Building markdown: "
          +:+ chalk_cyan Fixture.libs
                (basename (getFileInfo Fixture.externals Fixture.zzz_md))).
Proof.
  apply (markdown_failure_leaves_the_label Fixture.libs None (dirs (Fixture.config None))
           (getFileInfo Fixture.externals Fixture.zzz_md) VUndefined
           Fixture.store_with_spinner _ ENOENT {[ "text" := VStr "Building" ]}).
  - reflexivity.
  - apply run_eq. vm_compute. reflexivity.
Defined.

Lemma markdown_restores_the_store_witness :
  (markdown Fixture.libs None (dirs (Fixture.config None))
     (getFileInfo Fixture.externals Fixture.a_md) VUndefined
     Fixture.store_with_spinner).2
  = Fixture.store_with_spinner.
Proof.
  apply (markdown_restores_the_store Fixture.libs None (dirs (Fixture.config None))
           (getFileInfo Fixture.externals Fixture.a_md) VUndefined
           Fixture.store_with_spinner _
           (VObj [("attributes", VObj []); ("body", VStr "<p># a</p>");
                  ("bodyBegin", VNum 1)])
           {[ "text" := VStr "Building" ]}).
  - reflexivity.
  - exists (VStr "Building"). vm_compute. reflexivity.
  - apply run_eq. vm_compute. reflexivity.
Defined.

Lemma markdown_defines_a_missing_text_witness :
  config_spinner
    (markdown Fixture.libs None (dirs (Fixture.config None))
       (getFileInfo Fixture.externals Fixture.a_md) VUndefined
       Fixture.store_with_bare_spinner).2
  = Some (<["text" := VUndefined]> ∅).
Proof.
  apply (markdown_defines_a_missing_text Fixture.libs None (dirs (Fixture.config None))
           (getFileInfo Fixture.externals Fixture.a_md) VUndefined
           Fixture.store_with_bare_spinner _
           (VObj [("attributes", VObj []); ("body", VStr "<p># a</p>");
                  ("bodyBegin", VNum 1)])).
  - reflexivity.
  - vm_compute. reflexivity.
  - apply run_eq. vm_compute. reflexivity.
Defined.

Lemma markdown_result_is_rendered_front_matter_witness :
  exists text content html,
    fs_read (fs Fixture.store_with_spinner)
      (path (getFileInfo Fixture.externals Fixture.a_md)) = Ret text /\
    fm Fixture.libs text = Ret content /\
    render Fixture.libs
      (spread_options (default_options Fixture.libs) (default no_options None))
      (fm_body content) = Ret html /\
    VObj [("attributes", VObj []); ("body", VStr "<p># a</p>"); ("bodyBegin", VNum 1)]
    = VObj (obj_set (fm_object content) "body" (VStr html)) /\
    obj_get (obj_set (fm_object content) "body" (VStr html)) "body"
    = Some (VStr html) /\
    (forall k, k <> "body" ->
       obj_get (obj_set (fm_object content) "body" (VStr html)) k
       = obj_get (fm_object content) k) /\
    obj_keys (obj_set (fm_object content) "body" (VStr html))
    = obj_keys (fm_object content).
Proof.
  apply (markdown_result_is_rendered_front_matter Fixture.libs None
           (dirs (Fixture.config None))
           (getFileInfo Fixture.externals Fixture.a_md) VUndefined
           Fixture.store_with_spinner
           (markdown Fixture.libs None (dirs (Fixture.config None))
              (getFileInfo Fixture.externals Fixture.a_md) VUndefined
              Fixture.store_with_spinner).2).
  apply run_eq. vm_compute. reflexivity.
Defined.

Lemma markdown_unreadable_file_witness :
  markdown Fixture.libs None (dirs (Fixture.config None))
    (getFileInfo Fixture.externals Fixture.zzz_md) VUndefined Fixture.store_with_spinner
  = (Throw ENOENT,
     set_spinner_text
       (progress_label Fixture.libs (getFileInfo Fixture.externals Fixture.zzz_md))
       Fixture.store_with_spinner).
Proof.
  apply (proj1 (markdown_unreadable_file Fixture.libs None (dirs (Fixture.config None))
                  (getFileInfo Fixture.externals Fixture.zzz_md) VUndefined
                  Fixture.store_with_spinner)).
  vm_compute. reflexivity.
Defined.

Lemma markdown_pipeline_is_markdown_only :
  markdown_only Fixture.libs
    (Fixture.config_with [PFun (markdown Fixture.libs None); PVal VNull]).
Proof. repeat constructor. by exists None. Qed.

Lemma markdown_build_leaves_output_dirs_witness :
  output_dirs_exist Fixture.externals
    (Fixture.config_with [PFun (markdown Fixture.libs None); PVal VNull])
    (cwd Fixture.world)
    (fs (store (build Fixture.externals Fixture.options
                  (Fixture.config_with [PFun (markdown Fixture.libs None); PVal VNull])
                  Fixture.world).2)).
Proof.
  apply (markdown_build_leaves_output_dirs Fixture.libs Fixture.externals
           Fixture.options
           (Fixture.config_with [PFun (markdown Fixture.libs None); PVal VNull])
           Fixture.world).
  - exact markdown_pipeline_is_markdown_only.
  - apply run_eq. vm_compute. reflexivity.
Defined.
